(** * Voxel-wise statistics of flybrain_image_toolkit

    A shallow embedding of
    [registration_based_image_processing/voxel_t-stats.py]:
    the streaming (Welford) accumulator [calculate_online_stats_3d], the
    group comparison [compare_groups_voxelwise] with its Welch t-test and
    Benjamini-Hochberg correction, and the signed projection of
    [visualize_single_projection].

    Numbers.  A numpy [float64] is modelled by [xfloat]: an exact rational
    ([Qc]) or one of the three IEEE special values [PInf], [NInf], [NaN].
    Finite values are computed exactly: rounding, overflow and the sign of
    zero are not modelled.  The special values follow IEEE 754: a non-zero
    number divided by zero is an infinity, [0/0] and [Inf-Inf] are [NaN],
    every comparison with [NaN] is false.

    Arrays.  A numpy array of three dimensions is a shape and its samples
    in C order; element-wise operations broadcast as numpy does. *)

From Stdlib Require Import String Ascii.
From Stdlib Require Import QArith Qcanon ZArith Lia Lqa Bool PeanoNat Field.
From Stdlib Require Import List Permutation Sorting.Sorted.
Import ListNotations.

Local Open Scope nat_scope.

(** ** Extended rationals standing for float64 *)

Inductive xfloat : Type :=
| Fin (q : Qc)
| PInf
| NInf
| NaN.

Definition Qc_of_nat (n : nat) : Qc := Q2Qc (inject_Z (Z.of_nat n)).
Definition Qc_of_Z (z : Z) : Qc := Q2Qc (inject_Z z).

Definition xzero : xfloat := Fin 0%Qc.
Definition xone : xfloat := Fin 1%Qc.
Definition of_nat (n : nat) : xfloat := Fin (Qc_of_nat n).
Definition of_Z (z : Z) : xfloat := Fin (Qc_of_Z z).

Definition Qc_eqb (a b : Qc) : bool := Qeq_bool a b.
Definition Qc_leb (a b : Qc) : bool := Qle_bool a b.
Definition Qc_ltb (a b : Qc) : bool := negb (Qle_bool b a).

Definition is_nan (x : xfloat) : bool :=
  match x with NaN => true | _ => false end.

Definition is_finite (x : xfloat) : bool :=
  match x with Fin _ => true | _ => false end.

Definition xopp (x : xfloat) : xfloat :=
  match x with
  | Fin q => Fin (- q)%Qc
  | PInf => NInf
  | NInf => PInf
  | NaN => NaN
  end.

Definition xabs (x : xfloat) : xfloat :=
  match x with
  | Fin q => Fin (if Qc_ltb q 0%Qc then (- q)%Qc else q)
  | PInf | NInf => PInf
  | NaN => NaN
  end.

Definition xadd (x y : xfloat) : xfloat :=
  match x, y with
  | NaN, _ | _, NaN => NaN
  | Fin a, Fin b => Fin (a + b)%Qc
  | PInf, NInf | NInf, PInf => NaN
  | PInf, _ | _, PInf => PInf
  | NInf, _ | _, NInf => NInf
  end.

Definition xsub (x y : xfloat) : xfloat := xadd x (xopp y).

(** Sign of a rational: [Gt], [Eq] or [Lt] against zero. *)
Definition Qc_sign (q : Qc) : comparison := (q ?= 0)%Qc.

Definition inf_of (s : comparison) : xfloat :=
  match s with Gt => PInf | Lt => NInf | Eq => NaN end.

Definition flip (s : comparison) : comparison := CompOpp s.

Definition xmul (x y : xfloat) : xfloat :=
  match x, y with
  | NaN, _ | _, NaN => NaN
  | Fin a, Fin b => Fin (a * b)%Qc
  | Fin a, PInf | PInf, Fin a => inf_of (Qc_sign a)
  | Fin a, NInf | NInf, Fin a => inf_of (flip (Qc_sign a))
  | PInf, PInf | NInf, NInf => PInf
  | PInf, NInf | NInf, PInf => NInf
  end.

Definition xdiv (x y : xfloat) : xfloat :=
  match x, y with
  | NaN, _ | _, NaN => NaN
  | Fin a, Fin b =>
      if Qc_eqb b 0%Qc then inf_of (Qc_sign a) else Fin (a / b)%Qc
  | Fin _, (PInf | NInf) => xzero
  | PInf, Fin b => if Qc_ltb b 0%Qc then NInf else PInf
  | NInf, Fin b => if Qc_ltb b 0%Qc then PInf else NInf
  | (PInf | NInf), (PInf | NInf) => NaN
  end.

(** IEEE comparisons: anything against [NaN] is false. *)
Definition xleb (x y : xfloat) : bool :=
  match x, y with
  | NaN, _ | _, NaN => false
  | NInf, _ => true
  | _, PInf => true
  | Fin a, Fin b => Qc_leb a b
  | _, _ => false
  end.

Definition xltb (x y : xfloat) : bool :=
  match x, y with
  | NaN, _ | _, NaN => false
  | PInf, _ => false
  | _, NInf => false
  | Fin a, Fin b => Qc_ltb a b
  | _, _ => true
  end.

Definition xgtb (x y : xfloat) : bool := xltb y x.

Definition xeqb (x y : xfloat) : bool :=
  match x, y with
  | Fin a, Fin b => Qc_eqb a b
  | PInf, PInf | NInf, NInf | NaN, NaN => true
  | _, _ => false
  end.

(** ** Errors and results *)

Inductive error : Type :=
| ValueError (msg : string)
| TypeError (msg : string)
| IndexError (msg : string)
| AxisError (msg : string)
| IOError (path : string).

Inductive result (A : Type) : Type :=
| Ok (a : A)
| Err (e : error).

Arguments Ok {A} a.
Arguments Err {A} e.

Definition bind {A B : Type} (r : result A) (k : A -> result B) : result B :=
  match r with
  | Ok a => k a
  | Err e => Err e
  end.

Notation "x <- r ;; k" := (bind r (fun x => k))
  (at level 61, r at next level, right associativity).
Notation "' p <- r ;; k" := (bind r (fun p => k))
  (at level 61, p pattern, r at next level, right associativity).

Definition is_ok {A : Type} (r : result A) : bool :=
  match r with Ok _ => true | Err _ => false end.

(** The loop [for x in xs: st = step(st, x)] where a step may raise. *)
Fixpoint foldM {A S : Type} (step : S -> A -> result S) (xs : list A) (st : S)
  : result S :=
  match xs with
  | [] => Ok st
  | x :: xs' => st' <- step st x ;; foldM step xs' st'
  end.

(** ** Arrays of three dimensions *)

Definition shape3 : Type := (nat * nat * nat)%type.

Definition size (s : shape3) : nat :=
  let '(s0, s1, s2) := s in s0 * s1 * s2.

Definition shape_eqb (a b : shape3) : bool :=
  let '(a0, a1, a2) := a in
  let '(b0, b1, b2) := b in
  (a0 =? b0) && (a1 =? b1) && (a2 =? b2).

Record ndarray (A : Type) : Type := mk_nd {
  shape : shape3;
  data : list A
}.

Arguments mk_nd {A} shape data.
Arguments shape {A} n.
Arguments data {A} n.

(** An array is well formed when it holds one sample per voxel. *)
Definition wf {A : Type} (a : ndarray A) : Prop :=
  length (data a) = size (shape a).

Definition wfb {A : Type} (a : ndarray A) : bool :=
  length (data a) =? size (shape a).

Fixpoint zip_with {A B C : Type} (f : A -> B -> C) (xs : list A) (ys : list B)
  : list C :=
  match xs, ys with
  | x :: xs', y :: ys' => f x y :: zip_with f xs' ys'
  | _, _ => []
  end.

(** Offset of voxel [(i, j, k)] in C order. *)
Definition offset (s : shape3) (i j k : nat) : nat :=
  let '(_, s1, s2) := s in (i * s1 + j) * s2 + k.

Definition get3 {A : Type} (d : A) (a : ndarray A) (i j k : nat) : A :=
  nth (offset (shape a) i j k) (data a) d.

(** numpy broadcasting of one pair of dimensions. *)
Definition bdim (n m : nat) : option nat :=
  if n =? m then Some n
  else if n =? 1 then Some m
  else if m =? 1 then Some n
  else None.

Definition broadcast_shapes (a b : shape3) : option shape3 :=
  let '(a0, a1, a2) := a in
  let '(b0, b1, b2) := b in
  match bdim a0 b0, bdim a1 b1, bdim a2 b2 with
  | Some c0, Some c1, Some c2 => Some (c0, c1, c2)
  | _, _, _ => None
  end.

(** Along an axis of length one the single sample is repeated. *)
Definition pick (n i : nat) : nat := if n =? 1 then 0 else i.

(** All voxels of a grid of shape [s], in C order. *)
Definition tabulate {A : Type} (s : shape3) (f : nat -> nat -> nat -> A)
  : list A :=
  let '(s0, s1, s2) := s in
  flat_map (fun i =>
    flat_map (fun j => map (fun k => f i j k) (seq 0 s2)) (seq 0 s1))
    (seq 0 s0).

Definition broadcast_to {A : Type} (d : A) (a : ndarray A) (s : shape3)
  : list A :=
  let '(a0, a1, a2) := shape a in
  tabulate s (fun i j k => get3 d a (pick a0 i) (pick a1 j) (pick a2 k)).

Definition broadcast_msg : string :=
  "operands could not be broadcast together".
Definition output_msg : string :=
  "non-broadcastable output operand".

(** [a op b] for a numpy binary ufunc. *)
Definition broadcast2 {A B C : Type} (f : A -> B -> C) (dA : A) (dB : B)
  (a : ndarray A) (b : ndarray B) : result (ndarray C) :=
  match broadcast_shapes (shape a) (shape b) with
  | Some s =>
      Ok (mk_nd s (zip_with f (broadcast_to dA a s) (broadcast_to dB b s)))
  | None => Err (ValueError broadcast_msg)
  end.

(** [a op= b]: the result is stored in [a], whose shape cannot grow. *)
Definition inplace2 {A B : Type} (f : A -> B -> A) (dA : A) (dB : B)
  (a : ndarray A) (b : ndarray B) : result (ndarray A) :=
  match broadcast_shapes (shape a) (shape b) with
  | Some s =>
      if shape_eqb s (shape a)
      then Ok (mk_nd s (zip_with f (broadcast_to dA a s) (broadcast_to dB b s)))
      else Err (ValueError output_msg)
  | None => Err (ValueError broadcast_msg)
  end.

Definition nd_map {A B : Type} (f : A -> B) (a : ndarray A) : ndarray B :=
  mk_nd (shape a) (map f (data a)).

Definition zeros (s : shape3) : ndarray xfloat :=
  mk_nd s (repeat xzero (size s)).

Definition nd_sub := broadcast2 xsub NaN NaN.
Definition nd_add := broadcast2 xadd NaN NaN.
Definition nd_mul := broadcast2 xmul NaN NaN.
Definition nd_div := broadcast2 xdiv NaN NaN.
Definition nd_iadd := inplace2 xadd NaN NaN.
Definition nd_div_scalar (a : ndarray xfloat) (c : xfloat) : ndarray xfloat :=
  nd_map (fun x => xdiv x c) a.
Definition nd_square (a : ndarray xfloat) : ndarray xfloat :=
  nd_map (fun x => xmul x x) a.

(** [path.endswith(suffix)] *)
Definition endswith (s suffix : string) : bool :=
  let n := String.length s in
  let m := String.length suffix in
  (m <=? n) && String.eqb (substring (n - m) m s) suffix.

(** ** The streaming accumulator and the comparison *)

Record comparison_result : Type := mk_result {
  t_statistics : ndarray xfloat;
  p_values_uncorrected : ndarray xfloat;
  p_values_corrected_fdr : ndarray xfloat;
  significant_mask_fdr : ndarray bool;
  mean_diff : ndarray xfloat
}.

Definition stats : Type :=
  (option (ndarray xfloat) * option (ndarray xfloat) * nat)%type.

Definition acc_state : Type := (ndarray xfloat * ndarray xfloat * nat)%type.

Section Pipeline.

(** The two readers of the file system, [np.load] and [nrrd.read] (the
    header it returns is dropped by the accumulator); a reader that raises
    returns [Err]. The samples are already cast to float64. *)
Variable np_load : string -> result (ndarray xfloat).
Variable nrrd_read : string -> result (ndarray xfloat).

Definition read_array (path : string) : result (ndarray xfloat) :=
  if endswith path ".npy" then np_load path else nrrd_read path.

(** One turn of the loop of [calculate_online_stats_3d]. *)
Definition welford_step (st : acc_state) (path : string) : result acc_state :=
  let '(mean_arr, S_arr, n) := st in
  current_array <- read_array path ;;
  let n := n + 1 in
  delta <- nd_sub current_array mean_arr ;;
  mean_arr <- nd_iadd mean_arr (nd_div_scalar delta (of_nat n)) ;;
  delta2 <- nd_sub current_array mean_arr ;;
  prod <- nd_mul delta delta2 ;;
  S_arr <- nd_iadd S_arr prod ;;
  Ok (mean_arr, S_arr, n).

Definition calculate_online_stats_3d (array_paths : list string)
  : result stats :=
  match array_paths with
  | [] => Ok (None, None, 0)
  | first_path :: _ =>
      first_array <- read_array first_path ;;
      let mean_arr := zeros (shape first_array) in
      let S_arr := zeros (shape first_array) in
      '(mean_arr, S_arr, n) <- foldM welford_step array_paths (mean_arr, S_arr, 0) ;;
      let variance_arr :=
        if n <? 2 then zeros (shape mean_arr)
        else nd_div_scalar S_arr (of_nat (n - 1)) in
      Ok (Some mean_arr, Some variance_arr, n)
  end.

(** *** Welch's t-test from summary statistics

    Modelled from the spec: [scipy.stats.ttest_ind_from_stats] is a library
    function, absent from the sources. The comparison calls it with
    [equal_var=False]; the specification describes it as Welch's
    unequal-variance t-statistic and its two-sided p-value, computed in
    closed form from the means, variances and counts with the
    Welch-Satterthwaite degrees of freedom. The definitions below follow
    the library's [_unequal_var_ttest_denom] and [_ttest_ind_from_stats].
    The square root [np.sqrt] and Student's distribution function
    [scipy.special.stdtr] are not rational functions: they are
    parameters. *)
Variable np_sqrt : xfloat -> xfloat.
Variable stdtr : xfloat -> xfloat -> xfloat.

Definition unequal_var_ttest_denom (v1 : ndarray xfloat) (n1 : nat)
  (v2 : ndarray xfloat) (n2 : nat) : result (ndarray xfloat * ndarray xfloat) :=
  let vn1 := nd_div_scalar v1 (of_nat n1) in
  let vn2 := nd_div_scalar v2 (of_nat n2) in
  s <- nd_add vn1 vn2 ;;
  e <- nd_add (nd_div_scalar (nd_square vn1) (of_nat (n1 - 1)))
              (nd_div_scalar (nd_square vn2) (of_nat (n2 - 1))) ;;
  df <- nd_div (nd_square s) e ;;
  let df := nd_map (fun x => if is_nan x then xone else x) df in
  let denom := nd_map np_sqrt s in
  Ok (df, denom).

Definition two_sided (df t : xfloat) : xfloat :=
  xmul (stdtr df (xopp (xabs t))) (of_nat 2).

Definition ttest_ind_from_stats (mean1 std1 : ndarray xfloat) (nobs1 : nat)
  (mean2 std2 : ndarray xfloat) (nobs2 : nat)
  : result (ndarray xfloat * ndarray xfloat) :=
  '(df, denom) <- unequal_var_ttest_denom (nd_square std1) nobs1
                    (nd_square std2) nobs2 ;;
  d <- nd_sub mean1 mean2 ;;
  t <- nd_div d denom ;;
  pval <- broadcast2 two_sided NaN NaN df t ;;
  Ok (t, pval).

(** *** Benjamini-Hochberg correction

    Modelled from the spec: [statsmodels.stats.multitest.fdrcorrection] is
    a library function, absent from the sources. The specification
    describes it as the Benjamini-Hochberg procedure over the flattened
    p-values: sort ascending, find the largest rank [i] with
    [p_(i) <= (i/m) * alpha], mark the voxels at or below that rank, and
    adjust each p-value by the step-up formula on [p * m / rank]. The
    definitions below follow the library with its defaults
    ([method='indep'], [is_sorted=False]). *)

(** Order of [np.argsort] on floats: [NaN] goes last. *)
Definition sort_leb (x y : xfloat) : bool :=
  match x, y with
  | _, NaN => true
  | NaN, _ => false
  | _, _ => xleb x y
  end.

Fixpoint insert_by (key : nat -> xfloat) (i : nat) (l : list nat) : list nat :=
  match l with
  | [] => [i]
  | j :: l' =>
      if sort_leb (key i) (key j) then i :: l else j :: insert_by key i l'
  end.

Definition argsort (ps : list xfloat) : list nat :=
  fold_right (insert_by (fun i => nth i ps NaN)) [] (seq 0 (length ps)).

Definition take (ps : list xfloat) (idx : list nat) : list xfloat :=
  map (fun i => nth i ps NaN) idx.

(** [np.arange(1, nobs+1) / float(nobs)] *)
Definition ecdf (nobs : nat) : list xfloat :=
  map (fun i => xdiv (of_nat i) (of_nat nobs)) (seq 1 nobs).

(** [max(np.nonzero(reject)[0])], when [reject.any()]. *)
Fixpoint last_true_from (i : nat) (l : list bool) : option nat :=
  match l with
  | [] => None
  | b :: l' =>
      match last_true_from (S i) l' with
      | Some j => Some j
      | None => if b then Some i else None
      end
  end.

Definition last_true (l : list bool) : option nat := last_true_from 0 l.

(** [reject[:rejectmax] = True] *)
Definition fill_before (rejectmax : nat) (l : list bool) : list bool :=
  zip_with (fun i b => if i <? rejectmax then true else b)
    (seq 0 (length l)) l.

(** [np.minimum]: the smaller one, [NaN] if either is. *)
Definition np_minimum (x y : xfloat) : xfloat :=
  if is_nan x then x
  else if is_nan y then y
  else if xleb x y then x else y.

Fixpoint accumulate_from (f : xfloat -> xfloat -> xfloat) (acc : xfloat)
  (l : list xfloat) : list xfloat :=
  match l with
  | [] => []
  | x :: l' => let a := f acc x in a :: accumulate_from f a l'
  end.

Definition minimum_accumulate (l : list xfloat) : list xfloat :=
  match l with
  | [] => []
  | x :: l' => x :: accumulate_from np_minimum x l'
  end.

Fixpoint update_nth {A : Type} (i : nat) (v : A) (l : list A) : list A :=
  match l, i with
  | [], _ => []
  | _ :: l', O => v :: l'
  | x :: l', S i' => x :: update_nth i' v l'
  end.

(** [out[idx] = vals] for an index array [idx]. *)
Definition scatter {A : Type} (out : list A) (idx : list nat) (vals : list A)
  : list A :=
  fold_left (fun o iv => update_nth (fst iv) (snd iv) o) (combine idx vals) out.

Definition fdrcorrection (pvals : list xfloat) (alpha : xfloat)
  : list bool * list xfloat :=
  let pvals_sortind := argsort pvals in
  let pvals_sorted := take pvals pvals_sortind in
  let ecdffactor := ecdf (length pvals_sorted) in
  let reject :=
    zip_with (fun p e => xleb p (xmul e alpha)) pvals_sorted ecdffactor in
  let reject :=
    match last_true reject with
    | Some rejectmax => fill_before rejectmax reject
    | None => reject
    end in
  let pvals_corrected_raw := zip_with xdiv pvals_sorted ecdffactor in
  let pvals_corrected := rev (minimum_accumulate (rev pvals_corrected_raw)) in
  let pvals_corrected :=
    map (fun x => if xgtb x xone then xone else x) pvals_corrected in
  let pvals_corrected_ :=
    scatter (repeat NaN (length pvals_corrected)) pvals_sortind pvals_corrected in
  let reject_ := scatter (repeat false (length reject)) pvals_sortind reject in
  (reject_, pvals_corrected_).

(** *** The comparison *)

Definition insufficient_msg : string :=
  "Each group must contain at least two arrays to perform a t-test.".

(** [a[np.isnan(a)] = v] *)
Definition replace_nan (v : xfloat) (a : ndarray xfloat) : ndarray xfloat :=
  nd_map (fun x => if is_nan x then v else x) a.

Definition flatten {A : Type} (a : ndarray A) : list A := data a.
Definition reshape {A : Type} (l : list A) (s : shape3) : ndarray A := mk_nd s l.

Definition compare_groups_voxelwise (group_a_paths group_b_paths : list string)
  (alpha : xfloat) : result comparison_result :=
  '(mean_A, var_A, n_A) <- calculate_online_stats_3d group_a_paths ;;
  '(mean_B, var_B, n_B) <- calculate_online_stats_3d group_b_paths ;;
  if (n_A <? 2) || (n_B <? 2) then Err (ValueError insufficient_msg)
  else
    match mean_A, var_A, mean_B, var_B with
    | Some mean_A, Some var_A, Some mean_B, Some var_B =>
        '(t_stats, p_values) <-
          ttest_ind_from_stats mean_A (nd_map np_sqrt var_A) n_A
                               mean_B (nd_map np_sqrt var_B) n_B ;;
        let t_stats := replace_nan xzero t_stats in
        let p_values := replace_nan xone p_values in
        let original_shape := shape p_values in
        let p_values_flat := flatten p_values in
        let '(rejected, p_values_corrected) :=
          fdrcorrection p_values_flat alpha in
        let significant_mask := reshape rejected original_shape in
        diff <- nd_sub mean_B mean_A ;;
        Ok (mk_result t_stats p_values
              (reshape p_values_corrected original_shape)
              significant_mask diff)
    | _, _, _, _ => Err (TypeError "NoneType")
    end.

End Pipeline.

(** *** The signed projection of [visualize_single_projection] *)

(** [np.argmax] of a non-empty row: the first maximum, or the first [NaN]. *)
Fixpoint argmax_from (best_i : nat) (best : xfloat) (i : nat) (l : list xfloat)
  : nat :=
  match l with
  | [] => best_i
  | x :: l' =>
      if is_nan best then best_i
      else if is_nan x || xltb best x then argmax_from i x (S i) l'
      else argmax_from best_i best (S i) l'
  end.

Definition argmax (l : list xfloat) : option nat :=
  match l with
  | [] => None
  | x :: l' => Some (argmax_from 0 x 1 l')
  end.

(** Lengths of the projected image and of the projected axis. *)
Definition proj_shape (s : shape3) (axis_idx : nat) : nat * nat * nat :=
  let '(s0, s1, s2) := s in
  match axis_idx with
  | 0 => (s1, s2, s0)
  | 1 => (s0, s2, s1)
  | _ => (s0, s1, s2)
  end.

(** Voxel [idx] of the ray behind pixel [(i, j)]. *)
Definition along (a : ndarray xfloat) (axis_idx i j idx : nat) : xfloat :=
  match axis_idx with
  | 0 => get3 NaN a idx i j
  | 1 => get3 NaN a i idx j
  | _ => get3 NaN a i j idx
  end.

(** [diff_mask = zeros_like(mean_diff);
     diff_mask[significant_mask] = mean_diff[significant_mask]] *)
Definition masked_diff (significant_mask : ndarray bool)
  (mean_diff : ndarray xfloat) : result (ndarray xfloat) :=
  if shape_eqb (shape significant_mask) (shape mean_diff)
  then Ok (mk_nd (shape mean_diff)
             (zip_with (fun (m : bool) d => if m then d else xzero)
                (data significant_mask) (data mean_diff)))
  else Err (IndexError "boolean index did not match indexed array").

(** [max_indices[i, j]] *)
Definition max_index (diff_mask : ndarray xfloat) (axis_idx i j : nat)
  : option nat :=
  let '(_, _, len) := proj_shape (shape diff_mask) axis_idx in
  argmax (map (fun idx => xabs (along diff_mask axis_idx i j idx)) (seq 0 len)).

Definition map_result {A B : Type} (f : A -> result B) (l : list A)
  : result (list B) :=
  fold_right (fun x acc => y <- f x ;; ys <- acc ;; Ok (y :: ys)) (Ok []) l.

Definition signed_projection (significant_mask : ndarray bool)
  (mean_diff : ndarray xfloat) (axis_idx : nat) : result (list (list xfloat)) :=
  if 3 <=? axis_idx then Err (AxisError "axis is out of bounds") else
  diff_mask <- masked_diff significant_mask mean_diff ;;
  let '(rows, cols, len) := proj_shape (shape diff_mask) axis_idx in
  if len =? 0
  then Err (ValueError "attempt to get argmax of an empty sequence") else
  map_result (fun i =>
    map_result (fun j =>
      match max_index diff_mask axis_idx i j with
      | None => Err (ValueError "attempt to get argmax of an empty sequence")
      | Some idx =>
          Ok (if 0 <? idx then along diff_mask axis_idx i j idx else xzero)
      end) (seq 0 cols)) (seq 0 rows).

(** ** The two-pass statistics of the specification

    The whole stack is loaded; voxel by voxel the mean is the sum over the
    stack divided by its length [N], and the sample variance is the sum of
    the squared deviations from that mean divided by [N - 1] (zero when only
    one sample was observed). *)

Definition column (stack : list (ndarray xfloat)) (v : nat) : list xfloat :=
  map (fun a => nth v (data a) NaN) stack.






(** The one-pass recurrence of the specification on the samples of one
    voxel: for the k-th sample [x], [delta = x - mean; mean += delta / k;
    delta2 = x - mean; S += delta * delta2]. *)
Definition welford_update (k : nat) (x : xfloat) (ms : xfloat * xfloat)
  : xfloat * xfloat :=
  let '(mean, ssd) := ms in
  let delta := xsub x mean in
  let mean := xadd mean (xdiv delta (of_nat k)) in
  let delta2 := xsub x mean in
  (mean, xadd ssd (xmul delta delta2)).

Fixpoint welford_run (k : nat) (col : list xfloat) (ms : xfloat * xfloat)
  : xfloat * xfloat :=
  match col with
  | [] => ms
  | x :: col' => welford_run (S k) col' (welford_update (S k) x ms)
  end.



(** ** A small file system and stand-ins for the numeric library

    Used to run the pipeline on concrete inputs. *)

Definition const_array (s : shape3) (q : Qc) : ndarray xfloat :=
  mk_nd s (repeat (Fin q) (size s)).

Definition q_of (n : Z) (d : positive) : Qc := Q2Qc (n # d).

Definition arr (s : shape3) (l : list Z) : ndarray xfloat :=
  mk_nd s (map of_Z l).

Definition x1_array : ndarray xfloat := arr (2, 1, 2) [1; 2; 3; 4]%Z.
Definition x2_array : ndarray xfloat := arr (2, 1, 2) [3; 2; 7; 0]%Z.
Definition x3_array : ndarray xfloat := arr (2, 1, 2) [5; 8; 2; 2]%Z.
Definition small_array : ndarray xfloat := arr (1, 1, 1) [6]%Z.
Definition big_array : ndarray xfloat :=
  arr (2, 2, 2) [1; 2; 3; 4; 5; 6; 7; 8]%Z.
Definition odd_array : ndarray xfloat := arr (3, 1, 2) [1; 2; 3; 4; 5; 6]%Z.

Definition file (name : string) (a : ndarray xfloat)
  : string * ndarray xfloat := (name, a).

Definition sample_files : list (string * ndarray xfloat) :=
  [ file "one_a.npy" (const_array (2, 1, 2) 1%Qc);
    file "one_b.npy" (const_array (2, 1, 2) 1%Qc);
    file "two_a.npy" (const_array (2, 1, 2) (Qc_of_Z 2));
    file "two_b.npy" (const_array (2, 1, 2) (Qc_of_Z 2));
    file "x1.nrrd" x1_array;
    file "x2.nrrd" x2_array;
    file "x3.nrrd" x3_array;
    file "y1.nrrd" (arr (2, 1, 2) [2; 2; 1; 9]%Z);
    file "y2.nrrd" (arr (2, 1, 2) [6; 1; 1; 4]%Z);
    file "small.npy" small_array;
    file "big.npy" big_array;
    file "odd.npy" odd_array;
    file "nan.npy" (mk_nd (2, 1, 2) [NaN; Fin 1%Qc; PInf; Fin 0%Qc]) ].

Fixpoint lookup (path : string) (files : list (string * ndarray xfloat))
  : result (ndarray xfloat) :=
  match files with
  | [] => Err (IOError path)
  | (name, a) :: files' =>
      if String.eqb name path then Ok a else lookup path files'
  end.

Definition sample_load (path : string) : result (ndarray xfloat) :=
  lookup path sample_files.

(** A rational square root, exact on squares of rationals. *)
Definition sqrt_model (x : xfloat) : xfloat :=
  match x with
  | Fin q =>
      if Qc_ltb q 0%Qc then NaN
      else Fin (Q2Qc (Z.sqrt (Qnum q * Zpos (Qden q)) # Qden q))
  | PInf => PInf
  | NInf | NaN => NaN
  end.

(** A distribution function with the limits and the symmetry of Student's:
    one half at zero, zero at [-Inf], one at [+Inf]. *)
Definition stdtr_model (df t : xfloat) : xfloat :=
  if is_nan df then NaN else
  match t with
  | Fin q =>
      let a := if Qc_ltb q 0%Qc then (- q)%Qc else q in
      Fin (q_of 1 2 + q / (Qc_of_Z 2 * (1 + a)))%Qc
  | PInf => xone
  | NInf => xzero
  | NaN => NaN
  end.

(** The projection the specification describes: the masked mean difference
    at the index where its absolute value is largest along the ray. *)
Definition signed_diff_at_argmax (significant_mask : ndarray bool)
  (mean_diff : ndarray xfloat) (axis_idx i j : nat) : result xfloat :=
  diff_mask <- masked_diff significant_mask mean_diff ;;
  match max_index diff_mask axis_idx i j with
  | None => Err (ValueError "attempt to get argmax of an empty sequence")
  | Some idx => Ok (along diff_mask axis_idx i j idx)
  end.

(** Shapes that numpy stores into an accumulator of shape [dst]. *)
Definition broadcastable_to (src dst : shape3) : bool :=
  match broadcast_shapes src dst with
  | Some s => shape_eqb s dst
  | None => false
  end.


Definition no_nan (a : ndarray xfloat) : Prop :=
  Forall (fun x => is_nan x = false) (data a).

Definition sample_calc : list string -> result stats :=
  calculate_online_stats_3d sample_load sample_load.

Definition sample_compare
  : list string -> list string -> xfloat -> result comparison_result :=
  compare_groups_voxelwise sample_load sample_load sqrt_model stdtr_model.

Definition alpha_05 : xfloat := Fin (q_of 1 20).

Definition group_x : list string :=
  ["x1.nrrd"; "x2.nrrd"; "x3.nrrd"]%string.
Definition group_y : list string := ["y1.nrrd"; "y2.nrrd"]%string.
Definition group_ones : list string := ["one_a.npy"; "one_b.npy"]%string.
Definition group_twos : list string := ["two_a.npy"; "two_b.npy"]%string.
Definition group_nan : list string :=
  ["x1.nrrd"; "nan.npy"; "x3.nrrd"]%string.

(** A volume of two voxels along the first axis, both significant; the
    larger absolute difference sits at index 0. *)
Definition ray_diff : ndarray xfloat := arr (2, 1, 1) [5; 1]%Z.
Definition ray_mask : ndarray bool := mk_nd (2, 1, 1) [true; true].


(** The result of an operation, mapped when there is one. *)
Definition on_ok {A B : Type} (h : A -> B) (r : result A) : result B :=
  match r with
  | Ok a => Ok (h a)
  | Err e => Err e
  end.

(** The samples of the accumulators after one turn of the loop, when the
    array read has their shape. *)
Definition welford_data (k : nat) (x mean ssd : list xfloat)
  : list xfloat * list xfloat :=
  let delta := zip_with xsub x mean in
  let mean' := zip_with xadd mean (map (fun d => xdiv d (of_nat k)) delta) in
  let delta2 := zip_with xsub x mean' in
  (mean', zip_with xadd ssd (zip_with xmul delta delta2)).






(** The decisions after [reject[:rejectmax] = True]. *)
Definition step_up (reject : list bool) : list bool :=
  match last_true reject with
  | Some rejectmax => fill_before rejectmax reject
  | None => reject
  end.

(** [np.minimum.accumulate(l[::-1])[::-1]] and the clipping at one. *)
Definition suffix_min (l : list xfloat) : list xfloat :=
  rev (minimum_accumulate (rev l)).

Definition clip_one (x : xfloat) : xfloat :=
  if xgtb x xone then xone else x.

Definition finite (x : xfloat) : Prop := is_finite x = true.




(** A probability: a finite value between zero and one. *)
Definition unit_interval (x : xfloat) : Prop :=
  exists q, x = Fin q /\ (0 <= q)%Qc /\ (q <= 1)%Qc.


(** What the comparison needs of Student's distribution function: on a
    non-positive argument it is a probability of at most one half, and it
    is NaN where it is not defined. *)
Definition lower_tail (stdtr : xfloat -> xfloat -> xfloat) : Prop :=
  forall df x,
    x = NaN \/ xleb x xzero = true ->
    stdtr df x = NaN \/
    exists q, stdtr df x = Fin q /\ (0 <= q)%Qc /\ (q <= q_of 1 2)%Qc.


Definition alpha_10 : xfloat := Fin (q_of 1 10).


(** Offset, in C order, of voxel [idx] of the ray behind pixel [(i, j)]. *)
Definition ray_offset (s : shape3) (axis_idx i j idx : nat) : nat :=
  match axis_idx with
  | 0 => offset s idx i j
  | 1 => offset s i idx j
  | _ => offset s i j idx
  end.


(** ** The files of a folder *)

(** [os.path.join(a, b)] on a POSIX system: an absolute [b] replaces [a];
    a separator is added unless [a] is empty or already ends with one. *)
Definition path_join (a b : string) : string :=
  if String.prefix "/" b then b
  else if String.eqb a "" || endswith a "/" then String.append a b
  else String.append a (String.append "/" b).

Section Folder.

(** The two calls to the operating system: [os.path.exists] and
    [os.listdir], which raises on what is not a readable directory. *)
Variable path_exists : string -> bool.
Variable listdir : string -> result (list string).

Definition get_files_with_suffix (folder_path suffix : string)
  : result (list string) :=
  if negb (path_exists folder_path)
  then Err (ValueError (String.append "Folder not found: " folder_path))
  else
    names <- listdir folder_path ;;
    let files :=
      map (path_join folder_path)
          (filter (fun f => endswith f suffix) names) in
    match files with
    | [] =>
        Err (ValueError
               (String.append "No files with suffix '"
                  (String.append suffix
                     (String.append "' found in " folder_path))))
    | _ :: _ => Ok files
    end.

End Folder.

(** A folder with two volumes and a text file. *)
Definition sample_exists (path : string) : bool :=
  String.eqb path "group_x".

Definition sample_listdir (path : string) : result (list string) :=
  if String.eqb path "group_x"
  then Ok ["x1.nrrd"; "notes.txt"; "x2.nrrd"]%string
  else Err (IOError path).


(** ** Basic facts *)

Ltac split_fdr :=
  try match goal with
      | H : context [fdrcorrection ?ps ?a] |- _ =>
          let E := fresh "Efdr" in destruct (fdrcorrection ps a) eqn:E
      end.

Ltac not_a_bind r :=
  lazymatch r with
  | context [bind _ _] => fail
  | _ => idtac
  end.

Ltac bind_case :=
  match goal with
  | H : context [bind ?r _] |- _ =>
      not_a_bind r;
      let E := fresh "E" in destruct r eqn:E; simpl bind in H
  | |- context [bind ?r _] =>
      not_a_bind r;
      let E := fresh "E" in destruct r eqn:E; simpl bind
  end.

Lemma Qc_eqb_true (a b : Qc) : Qc_eqb a b = true <-> a = b.
Proof.
  unfold Qc_eqb. rewrite Qeq_bool_iff. split.
  - apply Qc_is_canon.
  - intros ->. reflexivity.
Qed.

Lemma Qc_eqb_refl (a : Qc) : Qc_eqb a a = true.
Proof. apply Qc_eqb_true. reflexivity. Qed.

Lemma Qc_leb_true (a b : Qc) : Qc_leb a b = true <-> (a <= b)%Qc.
Proof. unfold Qc_leb, Qcle. apply Qle_bool_iff. Qed.

Lemma Qc_ltb_true (a b : Qc) : Qc_ltb a b = true <-> (a < b)%Qc.
Proof.
  unfold Qc_ltb. rewrite negb_true_iff. split.
  - intros H. apply Qcnot_le_lt. intros L.
    apply Qc_leb_true in L. unfold Qc_leb in L. congruence.
  - intros H. destruct (Qle_bool b a) eqn:E; [|reflexivity].
    apply Qle_bool_iff in E. apply Qclt_not_le in H. contradiction.
Qed.

Lemma Qc_ltb_false (a b : Qc) : Qc_ltb a b = false <-> (b <= a)%Qc.
Proof.
  unfold Qc_ltb. rewrite negb_false_iff. apply Qle_bool_iff.
Qed.

Lemma xeqb_true (x y : xfloat) : xeqb x y = true <-> x = y.
Proof.
  destruct x, y; simpl; try (split; congruence).
  rewrite Qc_eqb_true. split; congruence.
Qed.

Lemma replace_nan_no_nan (v : xfloat) (a : ndarray xfloat) :
  is_nan v = false -> no_nan (replace_nan v a).
Proof.
  intros Hv. unfold no_nan, replace_nan, nd_map. simpl.
  apply Forall_forall. intros x Hx. apply in_map_iff in Hx.
  destruct Hx as [y [<- _]]. destruct (is_nan y) eqn:E; assumption.
Qed.

Lemma broadcast2_err {A B C : Type} (f : A -> B -> C) dA dB a b e :
  broadcast2 f dA dB a b = Err e -> e = ValueError broadcast_msg.
Proof.
  unfold broadcast2. destruct (broadcast_shapes _ _); congruence.
Qed.

Section Comparison.

Variable np_load : string -> result (ndarray xfloat).
Variable nrrd_read : string -> result (ndarray xfloat).
Variable np_sqrt : xfloat -> xfloat.
Variable stdtr : xfloat -> xfloat -> xfloat.

Let calc := calculate_online_stats_3d np_load nrrd_read.
Let compare := compare_groups_voxelwise np_load nrrd_read np_sqrt stdtr.

Lemma ttest_err m1 s1 n1 m2 s2 n2 e :
  ttest_ind_from_stats np_sqrt stdtr m1 s1 n1 m2 s2 n2 = Err e ->
  e = ValueError broadcast_msg.
Proof.
  unfold ttest_ind_from_stats, unequal_var_ttest_denom, nd_add, nd_div, nd_sub.
  intros H.
  repeat (bind_case;
          [| match goal with
             | E : broadcast2 _ _ _ _ _ = Err _ |- _ =>
                 apply broadcast2_err in E; congruence
             end]).
  discriminate.
Qed.

(** C5, amended: for the empty path sequence the accumulator returns
    [(None, None, 0)] and raises nothing; the empty group is rejected by
    [compare_groups_voxelwise], which raises its ValueError on the count 0
    once the other group has been accumulated. *)
Theorem empty_group_returns_zero_count :
  calc [] = Ok (None, None, 0) /\
  forall other alpha,
    is_ok (calc other) = true ->
    compare [] other alpha = Err (ValueError insufficient_msg) /\
    compare other [] alpha = Err (ValueError insufficient_msg).
Proof.
  split; [reflexivity|].
  intros other alpha Hok. unfold compare, compare_groups_voxelwise.
  fold calc. destruct (calc other) as [[[mB vB] nB]|] eqn:E; [|discriminate].
  change (calc []) with (@Ok stats (None, None, 0)). simpl.
  rewrite orb_true_r. split; reflexivity.
Qed.

(** C8: once both groups have been accumulated,
    [compare_groups_voxelwise] raises its insufficient-samples ValueError
    exactly when one of the two counts is below 2. *)
Theorem insufficient_samples_iff A B alpha mA vA nA mB vB nB :
  calc A = Ok (mA, vA, nA) ->
  calc B = Ok (mB, vB, nB) ->
  compare A B alpha = Err (ValueError insufficient_msg) <-> nA < 2 \/ nB < 2.
Proof.
  intros HA HB. unfold compare, compare_groups_voxelwise. fold calc.
  rewrite HA, HB. simpl.
  destruct (nA <? 2) eqn:EA; destruct (nB <? 2) eqn:EB; simpl;
    try apply Nat.ltb_lt in EA; try apply Nat.ltb_lt in EB;
    try (split; [intros _; lia | reflexivity]).
  apply Nat.ltb_ge in EA, EB. split; [|lia].
  intros H. exfalso.
  destruct mA, vA, mB, vB; try discriminate.
  bind_case.
  - destruct a as [t p]. split_fdr.
    unfold nd_sub in H. bind_case; [discriminate|].
    apply broadcast2_err in E0. rewrite E0 in H. discriminate.
  - apply ttest_err in E. rewrite E in H. discriminate.
Qed.

(** C10: whenever the comparison returns, the t-statistic volume and the
    uncorrected p-value volume hold no NaN, whatever the t-test
    produced. *)
Theorem no_nan_in_t_and_p A B alpha r :
  compare A B alpha = Ok r ->
  no_nan (t_statistics r) /\ no_nan (p_values_uncorrected r).
Proof.
  unfold compare, compare_groups_voxelwise. intros H.
  bind_case; [|discriminate]. destruct a as [[mA vA] nA].
  bind_case; [|discriminate]. destruct a as [[mB vB] nB].
  destruct ((nA <? 2) || (nB <? 2)); [discriminate|].
  destruct mA, vA, mB, vB; try discriminate.
  bind_case; [|discriminate]. destruct a as [t p].
  split_fdr. bind_case; [|discriminate].
  injection H as <-. simpl.
  split; apply replace_nan_no_nan; reflexivity.
Qed.

End Comparison.

(** ** Runs on the sample file system *)

Lemma empty_group_returns_zero_count_witness :
  is_ok (sample_calc group_y) = true /\
  sample_compare [] group_y alpha_05 = Err (ValueError insufficient_msg) /\
  sample_compare group_y [] alpha_05 = Err (ValueError insufficient_msg).
Proof.
  split; [vm_compute; reflexivity|].
  apply (proj2 (empty_group_returns_zero_count
                  sample_load sample_load sqrt_model stdtr_model)).
  vm_compute; reflexivity.
Defined.

Lemma insufficient_samples_iff_witness :
  sample_compare ["x1.nrrd"%string] group_y alpha_05
    = Err (ValueError insufficient_msg) <-> 1 < 2 \/ 2 < 2.
Proof.
  eapply (insufficient_samples_iff sample_load sample_load).
  - vm_compute; reflexivity.
  - vm_compute; reflexivity.
Defined.

Lemma no_nan_in_t_and_p_witness :
  exists r,
    sample_compare group_nan group_y alpha_05 = Ok r /\
    no_nan (t_statistics r) /\ no_nan (p_values_uncorrected r).
Proof.
  destruct (sample_compare group_nan group_y alpha_05) as [r|e] eqn:E.
  - exists r. split; [reflexivity|].
    exact (no_nan_in_t_and_p sample_load sample_load sqrt_model stdtr_model
             group_nan group_y alpha_05 r E).
  - vm_compute in E. discriminate E.
Defined.

(** ** Shapes and the accumulator *)

Lemma shape_eqb_true (a b : shape3) : shape_eqb a b = true <-> a = b.
Proof.
  destruct a as [[a0 a1] a2], b as [[b0 b1] b2]. unfold shape_eqb.
  rewrite !andb_true_iff, !Nat.eqb_eq. split.
  - intros [[-> ->] ->]. reflexivity.
  - intros H. injection H as -> -> ->. auto.
Qed.

Lemma bdim_same (n : nat) : bdim n n = Some n.
Proof. unfold bdim. rewrite Nat.eqb_refl. reflexivity. Qed.

Lemma broadcast_shapes_same (s : shape3) : broadcast_shapes s s = Some s.
Proof.
  destruct s as [[s0 s1] s2]. unfold broadcast_shapes.
  rewrite !bdim_same. reflexivity.
Qed.



Lemma broadcast2_shape {A B C : Type} (f : A -> B -> C) dA dB a b c :
  broadcast2 f dA dB a b = Ok c ->
  broadcast_shapes (shape a) (shape b) = Some (shape c).
Proof.
  unfold broadcast2. destruct (broadcast_shapes _ _); [|discriminate].
  intros H. injection H as <-. reflexivity.
Qed.

Lemma inplace2_shape {A B : Type} (f : A -> B -> A) dA dB a b c :
  inplace2 f dA dB a b = Ok c -> shape c = shape a.
Proof.
  unfold inplace2. destruct (broadcast_shapes _ _); [|discriminate].
  destruct (shape_eqb s (shape a)) eqn:E; [|discriminate].
  apply shape_eqb_true in E. intros H. injection H as <-. exact E.
Qed.



Lemma broadcast2_same {A B C : Type} (f : A -> B -> C) dA dB a b :
  shape b = shape a ->
  exists c, broadcast2 f dA dB a b = Ok c /\ shape c = shape a.
Proof.
  intros E. unfold broadcast2. rewrite E, broadcast_shapes_same.
  eexists. split; reflexivity.
Qed.

Section Accumulator.

Variable np_load : string -> result (ndarray xfloat).
Variable nrrd_read : string -> result (ndarray xfloat).

Let read := read_array np_load nrrd_read.
Let step := welford_step np_load nrrd_read.
Let calc := calculate_online_stats_3d np_load nrrd_read.




Lemma broadcastable_to_same (s : shape3) : broadcastable_to s s = true.
Proof.
  unfold broadcastable_to. rewrite broadcast_shapes_same.
  apply shape_eqb_true. reflexivity.
Qed.

Lemma zeros_shape (s : shape3) : shape (zeros s) = s.
Proof. reflexivity. Qed.


End Accumulator.

Section Mismatch.

Variable np_load : string -> result (ndarray xfloat).
Variable nrrd_read : string -> result (ndarray xfloat).
Variable np_sqrt : xfloat -> xfloat.
Variable stdtr : xfloat -> xfloat -> xfloat.

Let read := read_array np_load nrrd_read.
Let calc := calculate_online_stats_3d np_load nrrd_read.
Let compare := compare_groups_voxelwise np_load nrrd_read np_sqrt stdtr.


End Mismatch.



(** C5, as stated, fails: the accumulator returns on the empty sequence. *)
Lemma empty_group_not_rejected :
  sample_calc [] = Ok (None, None, 0) /\ is_ok (sample_calc []) = true.
Proof. split; reflexivity. Qed.

(** ** Runs that show where the code departs from the specification *)

(** C2: two groups of constant arrays, all ones against all twos. Every
    voxel has zero variance in both groups, yet the returned t-statistic is
    minus infinity and the p-value is 0: only NaN is replaced, and a
    non-zero difference divided by a zero denominator is an infinity. *)
Theorem zero_variance_gives_infinite_t :
  exists r,
    sample_compare group_ones group_twos alpha_05 = Ok r /\
    data (t_statistics r) = [NInf; NInf; NInf; NInf] /\
    map (xeqb xzero) (data (p_values_uncorrected r))
      = [true; true; true; true].
Proof.
  destruct (sample_compare group_ones group_twos alpha_05) as [r|e] eqn:E;
    vm_compute in E; [|discriminate E].
  exists r. split; [reflexivity|]. injection E as <-.
  split; vm_compute; reflexivity.
Qed.

(** Identical constant groups do give t = 0 and p = 1 everywhere. *)
Lemma identical_constant_groups :
  exists r,
    sample_compare group_ones group_ones alpha_05 = Ok r /\
    map (xeqb xzero) (data (t_statistics r)) = [true; true; true; true] /\
    map (xeqb xone) (data (p_values_uncorrected r))
      = [true; true; true; true].
Proof.
  destruct (sample_compare group_ones group_ones alpha_05) as [r|e] eqn:E;
    vm_compute in E; [|discriminate E].
  exists r. split; [reflexivity|]. injection E as <-.
  split; vm_compute; reflexivity.
Qed.

(** C4: along the ray [5; 1] the absolute difference is largest at index
    0; the specification asks for the value 5 there, the loop of
    [visualize_single_projection] writes 0 because of its test
    [idx > 0]. *)
Theorem projection_drops_argmax_zero :
  max_index ray_diff 0 0 0 = Some 0 /\
  signed_diff_at_argmax ray_mask ray_diff 0 0 0 = Ok (of_Z 5) /\
  signed_projection ray_mask ray_diff 0 = Ok [[xzero]].
Proof. repeat split; reflexivity. Qed.

(** ** Arithmetic of the extended rationals *)

Lemma Qc_opp_zero : (- 0)%Qc = 0%Qc.
Proof. ring. Qed.

Lemma Qc_eqb_false (a b : Qc) : Qc_eqb a b = false <-> a <> b.
Proof.
  rewrite <- Qc_eqb_true. destruct (Qc_eqb a b); split; congruence.
Qed.

(** Order facts on [Qc] are read on the underlying fractions. *)
Ltac qc_order :=
  unfold Qcle, Qclt, Qcplus, Qcminus, Qcopp, Qcmult in *;
  cbn [this Q2Qc] in *; rewrite ?Qred_correct in *;
  change (Qred 0) with 0%Q in *; change (Qred 1) with 1%Q in *;
  lra.

Lemma Qc_opp_pos (a : Qc) : (a < 0)%Qc -> (0 < - a)%Qc.
Proof. intros H. qc_order. Qed.

Lemma Qc_opp_neg (a : Qc) : (0 < a)%Qc -> (- a < 0)%Qc.
Proof. intros H. qc_order. Qed.

Lemma Qc_opp_nonneg (a : Qc) : (0 <= - a)%Qc -> (a <= 0)%Qc.
Proof. intros H. qc_order. Qed.

Lemma Qc_opp_lt_zero (a : Qc) : (- a < 0)%Qc -> (0 < a)%Qc.
Proof. intros H. qc_order. Qed.

Lemma Qc_sign_opp (a : Qc) : Qc_sign (- a) = CompOpp (Qc_sign a).
Proof.
  unfold Qc_sign. destruct (a ?= 0)%Qc eqn:E; simpl.
  - apply Qceq_alt in E. subst a. rewrite Qc_opp_zero. reflexivity.
  - apply Qclt_alt in E. apply Qcgt_alt. apply Qc_opp_pos. exact E.
  - apply Qcgt_alt in E. apply Qclt_alt. apply Qc_opp_neg. exact E.
Qed.

Lemma inf_of_opp (s : comparison) : inf_of (CompOpp s) = xopp (inf_of s).
Proof. destruct s; reflexivity. Qed.

Lemma xopp_zero : xopp xzero = xzero.
Proof. unfold xzero. simpl. rewrite Qc_opp_zero. reflexivity. Qed.

Lemma xopp_involutive (x : xfloat) : xopp (xopp x) = x.
Proof. destruct x; simpl; try reflexivity. rewrite Qcopp_involutive. reflexivity. Qed.

Lemma xadd_comm (x y : xfloat) : xadd x y = xadd y x.
Proof.
  destruct x, y; simpl; try reflexivity. rewrite Qcplus_comm. reflexivity.
Qed.

Lemma xsub_swap (x y : xfloat) : xsub y x = xopp (xsub x y).
Proof.
  unfold xsub. destruct x, y; simpl; try reflexivity.
  f_equal. ring.
Qed.

Lemma Qc_ltb_opp (b : Qc) : Qc_ltb b 0 = false \/ Qc_ltb b 0 = true.
Proof. destruct (Qc_ltb b 0); auto. Qed.

Lemma xdiv_opp_l (x y : xfloat) : xdiv (xopp x) y = xopp (xdiv x y).
Proof.
  destruct x, y; simpl; try reflexivity;
    try (symmetry; apply xopp_zero);
    try (destruct (Qc_ltb q 0); reflexivity).
  destruct (Qc_eqb q0 0) eqn:E.
  - rewrite Qc_sign_opp. apply inf_of_opp.
  - apply Qc_eqb_false in E. simpl. f_equal. field. exact E.
Qed.

Lemma xabs_opp (x : xfloat) : xabs (xopp x) = xabs x.
Proof.
  destruct x; simpl; try reflexivity. f_equal.
  destruct (Qc_ltb q 0) eqn:E1; destruct (Qc_ltb (- q) 0) eqn:E2;
    try apply Qc_ltb_true in E1; try apply Qc_ltb_true in E2;
    try apply Qc_ltb_false in E1; try apply Qc_ltb_false in E2.
  - exfalso. apply Qc_opp_lt_zero in E2.
    exact (Qclt_not_le _ _ E2 (Qclt_le_weak _ _ E1)).
  - reflexivity.
  - apply Qcopp_involutive.
  - apply Qc_opp_nonneg in E2.
    assert (q = 0%Qc) as -> by (apply Qcle_antisym; assumption).
    apply Qc_opp_zero.
Qed.

(** ** Element-wise operations *)

Lemma zip_with_swap {A B C : Type} (f : A -> B -> C) xs ys :
  zip_with f xs ys = zip_with (fun y x => f x y) ys xs.
Proof.
  revert ys. induction xs as [|x xs IH]; intros [|y ys]; simpl; try reflexivity.
  f_equal. apply IH.
Qed.

Lemma zip_with_ext {A B C : Type} (f g : A -> B -> C) xs ys :
  (forall x y, f x y = g x y) -> zip_with f xs ys = zip_with g xs ys.
Proof.
  intros H. revert ys.
  induction xs as [|x xs IH]; intros [|y ys]; simpl; try reflexivity.
  rewrite H, IH. reflexivity.
Qed.

Lemma zip_with_map_l {A A' B C : Type} (f : A' -> B -> C) (h : A -> A') xs ys :
  zip_with f (map h xs) ys = zip_with (fun x y => f (h x) y) xs ys.
Proof.
  revert ys. induction xs as [|x xs IH]; intros [|y ys]; simpl; try reflexivity.
  f_equal. apply IH.
Qed.

Lemma zip_with_map_r {A B B' C : Type} (f : A -> B' -> C) (h : B -> B') xs ys :
  zip_with f xs (map h ys) = zip_with (fun x y => f x (h y)) xs ys.
Proof.
  revert ys. induction xs as [|x xs IH]; intros [|y ys]; simpl; try reflexivity.
  f_equal. apply IH.
Qed.

Lemma map_zip_with {A B C D : Type} (f : A -> B -> C) (h : C -> D) xs ys :
  map h (zip_with f xs ys) = zip_with (fun x y => h (f x y)) xs ys.
Proof.
  revert ys. induction xs as [|x xs IH]; intros [|y ys]; simpl; try reflexivity.
  f_equal. apply IH.
Qed.

Lemma zip_with_length {A B C : Type} (f : A -> B -> C) xs ys :
  length (zip_with f xs ys) = Nat.min (length xs) (length ys).
Proof.
  revert ys. induction xs as [|x xs IH]; intros [|y ys]; simpl; try reflexivity.
  f_equal. apply IH.
Qed.

Lemma nth_zip_with {A B C : Type} (f : A -> B -> C) dA dB dC xs ys n :
  n < length xs -> n < length ys ->
  nth n (zip_with f xs ys) dC = f (nth n xs dA) (nth n ys dB).
Proof.
  revert ys n. induction xs as [|x xs IH]; intros [|y ys] [|n] Hx Hy;
    simpl in *; try lia; try reflexivity.
  apply IH; lia.
Qed.

Lemma map_flat_map {A B C : Type} (h : B -> C) (g : A -> list B) l :
  map h (flat_map g l) = flat_map (fun x => map h (g x)) l.
Proof.
  induction l as [|x l IH]; simpl; [reflexivity|].
  rewrite map_app, IH. reflexivity.
Qed.

Lemma flat_map_ext_in {A B : Type} (f g : A -> list B) l :
  (forall x, In x l -> f x = g x) -> flat_map f l = flat_map g l.
Proof.
  induction l as [|x l IH]; intros H; simpl; [reflexivity|].
  rewrite H, IH; auto using in_eq, in_cons.
Qed.

Lemma tabulate_map {A B : Type} (h : A -> B) s f :
  tabulate s (fun i j k => h (f i j k)) = map h (tabulate s f).
Proof.
  destruct s as [[s0 s1] s2]. unfold tabulate.
  rewrite map_flat_map. apply flat_map_ext_in. intros i _.
  rewrite map_flat_map. apply flat_map_ext_in. intros j _.
  rewrite map_map. reflexivity.
Qed.

Lemma tabulate_ext {A : Type} s (f g : nat -> nat -> nat -> A) :
  (forall i j k,
      i < fst (fst s) -> j < snd (fst s) -> k < snd s -> f i j k = g i j k) ->
  tabulate s f = tabulate s g.
Proof.
  destruct s as [[s0 s1] s2]. simpl. intros H. unfold tabulate.
  apply flat_map_ext_in. intros i Hi. apply in_seq in Hi.
  apply flat_map_ext_in. intros j Hj. apply in_seq in Hj.
  apply map_ext_in. intros k Hk. apply in_seq in Hk.
  apply H; lia.
Qed.

Lemma broadcast_to_map {A B : Type} (h : A -> B) d a s :
  broadcast_to (h d) (nd_map h a) s = map h (broadcast_to d a s).
Proof.
  unfold broadcast_to. simpl. destruct (shape a) as [[a0 a1] a2] eqn:Ea.
  rewrite <- tabulate_map. apply tabulate_ext. intros i j k _ _ _.
  unfold get3. simpl. rewrite Ea. apply map_nth.
Qed.

Lemma bdim_comm (n m : nat) : bdim n m = bdim m n.
Proof.
  unfold bdim. destruct (n =? m) eqn:E.
  - apply Nat.eqb_eq in E. subst. rewrite Nat.eqb_refl. reflexivity.
  - rewrite (Nat.eqb_sym m n), E.
    destruct (n =? 1) eqn:E1; destruct (m =? 1) eqn:E2; try reflexivity.
    apply Nat.eqb_eq in E1, E2. apply Nat.eqb_neq in E. lia.
Qed.

Lemma broadcast_shapes_comm (a b : shape3) :
  broadcast_shapes a b = broadcast_shapes b a.
Proof.
  destruct a as [[a0 a1] a2], b as [[b0 b1] b2]. unfold broadcast_shapes.
  rewrite (bdim_comm a0), (bdim_comm a1), (bdim_comm a2). reflexivity.
Qed.

Lemma broadcast2_swap {A B C : Type} (f : A -> B -> C) dA dB a b :
  broadcast2 f dA dB a b = broadcast2 (fun y x => f x y) dB dA b a.
Proof.
  unfold broadcast2. rewrite (broadcast_shapes_comm (shape a)).
  destruct (broadcast_shapes _ _); [|reflexivity].
  rewrite zip_with_swap. reflexivity.
Qed.

Lemma broadcast2_ext {A B C : Type} (f g : A -> B -> C) dA dB a b :
  (forall x y, f x y = g x y) -> broadcast2 f dA dB a b = broadcast2 g dA dB a b.
Proof.
  intros H. unfold broadcast2. destruct (broadcast_shapes _ _); [|reflexivity].
  rewrite (zip_with_ext f g) by exact H. reflexivity.
Qed.

Lemma broadcast2_map_l {A A' B C : Type} (f : A' -> B -> C) (h : A -> A')
  dA dB a b :
  broadcast2 f (h dA) dB (nd_map h a) b
  = broadcast2 (fun x y => f (h x) y) dA dB a b.
Proof.
  unfold broadcast2. simpl. destruct (broadcast_shapes _ _); [|reflexivity].
  rewrite broadcast_to_map, zip_with_map_l. reflexivity.
Qed.

Lemma broadcast2_map_r {A B B' C : Type} (f : A -> B' -> C) (h : B -> B')
  dA dB a b :
  broadcast2 f dA (h dB) a (nd_map h b)
  = broadcast2 (fun x y => f x (h y)) dA dB a b.
Proof.
  unfold broadcast2. simpl. destruct (broadcast_shapes _ _); [|reflexivity].
  rewrite broadcast_to_map, zip_with_map_r. reflexivity.
Qed.

Lemma broadcast2_post {A B C D : Type} (f : A -> B -> C) (h : C -> D)
  dA dB a b :
  broadcast2 (fun x y => h (f x y)) dA dB a b
  = on_ok (nd_map h) (broadcast2 f dA dB a b).
Proof.
  unfold broadcast2. destruct (broadcast_shapes _ _); [|reflexivity].
  simpl. unfold nd_map. simpl. rewrite map_zip_with. reflexivity.
Qed.

Lemma nd_add_comm (a b : ndarray xfloat) : nd_add a b = nd_add b a.
Proof.
  unfold nd_add. rewrite broadcast2_swap. apply broadcast2_ext.
  intros x y. apply xadd_comm.
Qed.

Lemma nd_sub_swap (a b : ndarray xfloat) :
  nd_sub b a = on_ok (nd_map xopp) (nd_sub a b).
Proof.
  unfold nd_sub. rewrite broadcast2_swap, <- broadcast2_post.
  apply broadcast2_ext. intros x y. apply xsub_swap.
Qed.

Lemma nd_div_opp (d denom : ndarray xfloat) :
  nd_div (nd_map xopp d) denom = on_ok (nd_map xopp) (nd_div d denom).
Proof.
  unfold nd_div. rewrite <- broadcast2_post.
  rewrite (broadcast2_map_l xdiv xopp NaN NaN).
  apply broadcast2_ext. intros x y. apply xdiv_opp_l.
Qed.

(** ** Swapping the two groups *)

Section Symmetry.

Variable np_load : string -> result (ndarray xfloat).
Variable nrrd_read : string -> result (ndarray xfloat).
Variable np_sqrt : xfloat -> xfloat.
Variable stdtr : xfloat -> xfloat -> xfloat.

Let calc := calculate_online_stats_3d np_load nrrd_read.
Let compare := compare_groups_voxelwise np_load nrrd_read np_sqrt stdtr.
Let ttest := ttest_ind_from_stats np_sqrt stdtr.

Lemma denom_swap v1 n1 v2 n2 :
  unequal_var_ttest_denom np_sqrt v2 n2 v1 n1
  = unequal_var_ttest_denom np_sqrt v1 n1 v2 n2.
Proof.
  unfold unequal_var_ttest_denom.
  rewrite (nd_add_comm (nd_div_scalar v2 (of_nat n2))).
  rewrite (nd_add_comm (nd_div_scalar (nd_square (nd_div_scalar v2 (of_nat n2))) _)).
  reflexivity.
Qed.

Lemma two_sided_opp df t : two_sided stdtr df (xopp t) = two_sided stdtr df t.
Proof. unfold two_sided. rewrite xabs_opp. reflexivity. Qed.

Lemma ttest_swap m1 s1 n1 m2 s2 n2 :
  ttest m2 s2 n2 m1 s1 n1
  = on_ok (fun tp => (nd_map xopp (fst tp), snd tp)) (ttest m1 s1 n1 m2 s2 n2).
Proof.
  unfold ttest, ttest_ind_from_stats. rewrite denom_swap.
  destruct (unequal_var_ttest_denom _ _ _ _ _) as [[df denom]|];
    [|reflexivity].
  cbn [bind]. rewrite nd_sub_swap.
  destruct (nd_sub m1 m2) as [d|]; [|reflexivity].
  cbn [bind on_ok]. rewrite nd_div_opp.
  destruct (nd_div d denom) as [t|]; [|reflexivity].
  cbn [bind on_ok].
  rewrite (broadcast2_map_r (two_sided stdtr) xopp NaN NaN).
  rewrite (broadcast2_ext _ (two_sided stdtr)) by (intros; apply two_sided_opp).
  destruct (broadcast2 _ _ _ _ _); reflexivity.
Qed.

Lemma replace_nan_opp t :
  replace_nan xzero (nd_map xopp t) = nd_map xopp (replace_nan xzero t).
Proof.
  unfold replace_nan, nd_map. simpl. f_equal. rewrite !map_map.
  apply map_ext. intros x. destruct x; reflexivity.
Qed.

Lemma nd_abs_opp t : nd_map xabs (nd_map xopp t) = nd_map xabs t.
Proof.
  unfold nd_map. simpl. f_equal. rewrite map_map.
  apply map_ext. intros x. apply xabs_opp.
Qed.

(** C7: when the comparison of A against B returns, so does the comparison
    of B against A; its t-statistic and mean-difference volumes are the
    voxel-wise negations, [|t|] and the p-value volumes (uncorrected,
    corrected, and the mask) are the same; the mean difference is
    [mean_B - mean_A], and both groups hold at least two arrays. *)
Theorem swap_groups_negates A B alpha r :
  compare A B alpha = Ok r ->
  exists r',
    compare B A alpha = Ok r' /\
    t_statistics r' = nd_map xopp (t_statistics r) /\
    mean_diff r' = nd_map xopp (mean_diff r) /\
    nd_map xabs (t_statistics r') = nd_map xabs (t_statistics r) /\
    p_values_uncorrected r' = p_values_uncorrected r /\
    p_values_corrected_fdr r' = p_values_corrected_fdr r /\
    significant_mask_fdr r' = significant_mask_fdr r /\
    exists mean_A var_A n_A mean_B var_B n_B,
      calc A = Ok (Some mean_A, var_A, n_A) /\
      calc B = Ok (Some mean_B, var_B, n_B) /\
      2 <= n_A /\ 2 <= n_B /\
      nd_sub mean_B mean_A = Ok (mean_diff r).
Proof.
  unfold compare, compare_groups_voxelwise. fold calc. intros H.
  destruct (calc A) as [[[mA vA] nA]|] eqn:EA; [|discriminate].
  destruct (calc B) as [[[mB vB] nB]|] eqn:EB; [|discriminate].
  cbn [bind] in *. rewrite (orb_comm (nB <? 2)).
  destruct ((nA <? 2) || (nB <? 2)) eqn:En; [discriminate|].
  apply orb_false_elim in En. destruct En as [HnA HnB].
  apply Nat.ltb_ge in HnA, HnB.
  destruct mA as [mA|], vA as [vA|], mB as [mB|], vB as [vB|];
    try discriminate.
  fold ttest in H. fold ttest. rewrite ttest_swap.
  destruct (ttest mA _ nA mB _ nB) as [[t p]|]; [|discriminate].
  cbn [bind on_ok fst snd] in *.
  destruct (fdrcorrection _ _) as [rejected corrected].
  rewrite (nd_sub_swap mB mA).
  destruct (nd_sub mB mA) as [d|] eqn:Ed; [|discriminate].
  cbn [bind on_ok] in *. injection H as <-.
  eexists. split; [reflexivity|]. cbn.
  repeat split.
  - apply replace_nan_opp.
  - rewrite replace_nan_opp. apply nd_abs_opp.
  - exists mA, (Some vA), nA, mB, (Some vB), nB. auto.
Qed.

End Symmetry.

Lemma swap_groups_negates_witness :
  exists r r',
    sample_compare group_x group_y alpha_05 = Ok r /\
    sample_compare group_y group_x alpha_05 = Ok r' /\
    t_statistics r' = nd_map xopp (t_statistics r) /\
    mean_diff r' = nd_map xopp (mean_diff r) /\
    p_values_uncorrected r' = p_values_uncorrected r.
Proof.
  destruct (sample_compare group_x group_y alpha_05) as [r|e] eqn:E.
  - destruct (swap_groups_negates sample_load sample_load sqrt_model
                stdtr_model group_x group_y alpha_05 r E)
      as [r' [E' [Ht [Hd [_ [Hp _]]]]]].
    exists r, r'. repeat split; assumption.
  - vm_compute in E. discriminate E.
Defined.

(** ** Arrays of one shape *)

Lemma map_seq_from {A : Type} (g : nat -> A) a m :
  map g (seq a m) = map (fun k => g (a + k)) (seq 0 m).
Proof.
  revert a g. induction m as [|m IH]; intros a g; simpl; [reflexivity|].
  rewrite Nat.add_0_r. f_equal.
  rewrite (IH (S a)), <- (seq_shift m 0), map_map. apply map_ext.
  intros k. f_equal. lia.
Qed.

Lemma map_nth_seq {A : Type} (d : A) l :
  map (fun n => nth n l d) (seq 0 (length l)) = l.
Proof.
  induction l as [|x l IH]; simpl; [reflexivity|].
  f_equal. rewrite <- seq_shift, map_map. exact IH.
Qed.

Lemma flat_map_seq_mul {A : Type} (g : nat -> A) n m :
  flat_map (fun i => map (fun k => g (i * m + k)) (seq 0 m)) (seq 0 n)
  = map g (seq 0 (n * m)).
Proof.
  induction n as [|n IH]; [reflexivity|].
  rewrite seq_S, flat_map_app, IH. simpl flat_map. rewrite app_nil_r.
  replace (S n * m) with (n * m + m) by lia.
  rewrite seq_app, map_app. f_equal. simpl.
  symmetry. apply map_seq_from.
Qed.

Lemma tabulate_offset {A : Type} (g : nat -> A) s :
  tabulate s (fun i j k => g (offset s i j k)) = map g (seq 0 (size s)).
Proof.
  destruct s as [[s0 s1] s2]. unfold tabulate, offset, size.
  rewrite <- Nat.mul_assoc, <- flat_map_seq_mul.
  apply flat_map_ext_in. intros i _.
  rewrite <- (flat_map_seq_mul (fun n => g (i * (s1 * s2) + n))).
  apply flat_map_ext_in. intros j _. apply map_ext. intros k.
  f_equal. nia.
Qed.

Lemma pick_lt n i : i < n -> pick n i = i.
Proof.
  unfold pick. destruct (n =? 1) eqn:E; [|reflexivity].
  apply Nat.eqb_eq in E. lia.
Qed.

Lemma broadcast_to_self {A : Type} (d : A) (a : ndarray A) :
  wf a -> broadcast_to d a (shape a) = data a.
Proof.
  intros Hwf. unfold broadcast_to.
  destruct (shape a) as [[a0 a1] a2] eqn:Ea.
  rewrite (tabulate_ext _ _ (fun i j k => nth (offset (a0, a1, a2) i j k) (data a) d)).
  - rewrite (tabulate_offset (fun n => nth n (data a) d)).
    unfold wf in Hwf. rewrite Ea in Hwf. rewrite <- Hwf. apply map_nth_seq.
  - simpl. intros i j k Hi Hj Hk. unfold get3. rewrite Ea.
    rewrite !pick_lt by assumption. reflexivity.
Qed.

Lemma broadcast2_same_shape {A B C : Type} (f : A -> B -> C) dA dB a b :
  wf a -> wf b -> shape b = shape a ->
  broadcast2 f dA dB a b = Ok (mk_nd (shape a) (zip_with f (data a) (data b))).
Proof.
  intros Ha Hb E. unfold broadcast2. rewrite E, broadcast_shapes_same.
  rewrite broadcast_to_self by exact Ha.
  rewrite <- E, broadcast_to_self by exact Hb. rewrite E. reflexivity.
Qed.

Lemma inplace2_same_shape {A B : Type} (f : A -> B -> A) dA dB a b :
  wf a -> wf b -> shape b = shape a ->
  inplace2 f dA dB a b = Ok (mk_nd (shape a) (zip_with f (data a) (data b))).
Proof.
  intros Ha Hb E. unfold inplace2. rewrite E, broadcast_shapes_same.
  rewrite (proj2 (shape_eqb_true _ _) eq_refl).
  rewrite broadcast_to_self by exact Ha.
  rewrite <- E, broadcast_to_self by exact Hb. rewrite E. reflexivity.
Qed.

(** ** The accumulator, voxel by voxel *)

Ltac len_simpl :=
  unfold wf, nd_div_scalar, nd_map in *; cbn [shape data] in *;
  repeat first [rewrite zip_with_length | rewrite length_map].

Lemma welford_data_length k x mean ssd :
  length mean = length x -> length ssd = length x ->
  length (fst (welford_data k x mean ssd)) = length x /\
  length (snd (welford_data k x mean ssd)) = length x.
Proof.
  intros Hm Hs. unfold welford_data. simpl. len_simpl. lia.
Qed.

Lemma welford_data_nth k x mean ssd v :
  length mean = length x -> length ssd = length x -> v < length x ->
  (nth v (fst (welford_data k x mean ssd)) NaN,
   nth v (snd (welford_data k x mean ssd)) NaN)
  = welford_update k (nth v x NaN) (nth v mean NaN, nth v ssd NaN).
Proof.
  intros Hm Hs Hv. unfold welford_data, welford_update. simpl.
  set (delta := zip_with xsub x mean).
  assert (Hd : length delta = length x)
    by (unfold delta; rewrite zip_with_length; lia).
  assert (Hdv : nth v delta NaN = xsub (nth v x NaN) (nth v mean NaN))
    by (apply nth_zip_with; lia).
  set (scaled := map (fun d => xdiv d (of_nat k)) delta).
  assert (Hsv : nth v scaled NaN = xdiv (nth v delta NaN) (of_nat k)).
  { unfold scaled.
    change NaN with ((fun d => xdiv d (of_nat k)) NaN) at 1.
    apply map_nth. }
  set (mean' := zip_with xadd mean scaled).
  assert (Hm' : length mean' = length x)
    by (unfold mean', scaled; rewrite zip_with_length, length_map; lia).
  assert (Hmv : nth v mean' NaN = xadd (nth v mean NaN) (nth v scaled NaN))
    by (apply nth_zip_with; unfold scaled; rewrite ?length_map; lia).
  set (delta2 := zip_with xsub x mean').
  assert (Hd2 : nth v delta2 NaN = xsub (nth v x NaN) (nth v mean' NaN))
    by (apply nth_zip_with; lia).
  assert (Hl2 : length delta2 = length x)
    by (unfold delta2; rewrite zip_with_length; lia).
  rewrite (nth_zip_with xadd NaN NaN NaN ssd)
    by (rewrite ?zip_with_length; lia).
  rewrite (nth_zip_with xmul NaN NaN NaN delta delta2) by lia.
  rewrite Hmv, Hd2, Hmv, Hsv, Hdv. reflexivity.
Qed.

Section Welford.

Variable np_load : string -> result (ndarray xfloat).
Variable nrrd_read : string -> result (ndarray xfloat).

Let read := read_array np_load nrrd_read.
Let step := welford_step np_load nrrd_read.
Let calc := calculate_online_stats_3d np_load nrrd_read.

Lemma welford_step_same_shape mean_arr S_arr n path x :
  read path = Ok x ->
  wf x -> wf mean_arr -> wf S_arr ->
  shape mean_arr = shape x -> shape S_arr = shape x ->
  step (mean_arr, S_arr, n) path
  = Ok (mk_nd (shape x)
          (fst (welford_data (n + 1) (data x) (data mean_arr) (data S_arr))),
        mk_nd (shape x)
          (snd (welford_data (n + 1) (data x) (data mean_arr) (data S_arr))),
        n + 1).
Proof.
  intros Hr Hx Hm Hs Em Es. unfold step, welford_step. fold read.
  rewrite Hr. cbn [bind].
  assert (Lm : length (data mean_arr) = length (data x))
    by (unfold wf in *; congruence).
  assert (Ls : length (data S_arr) = length (data x))
    by (unfold wf in *; congruence).
  unfold nd_sub at 1. rewrite broadcast2_same_shape by assumption.
  cbn [bind]. unfold nd_iadd at 1.
  rewrite inplace2_same_shape;
    [| assumption | len_simpl; lia | simpl; congruence].
  cbn [bind nd_div_scalar nd_map shape data].
  unfold nd_sub. rewrite broadcast2_same_shape;
    [| assumption | len_simpl; lia | simpl; congruence].
  cbn [bind shape data]. unfold nd_mul.
  rewrite broadcast2_same_shape;
    [| len_simpl; lia | len_simpl; lia | reflexivity].
  cbn [bind shape data]. unfold nd_iadd.
  rewrite inplace2_same_shape;
    [| assumption | len_simpl; lia | simpl; congruence].
  rewrite Em, Es. reflexivity.
Qed.

Lemma foldM_welford paths arrays s :
  Forall2 (fun p a => read p = Ok a) paths arrays ->
  Forall (fun a => shape a = s /\ wf a) arrays ->
  forall mean_arr S_arr n,
    wf mean_arr -> wf S_arr -> shape mean_arr = s -> shape S_arr = s ->
    exists mean' S',
      foldM step paths (mean_arr, S_arr, n)
      = Ok (mean', S', n + length arrays) /\
      shape mean' = s /\ shape S' = s /\ wf mean' /\ wf S' /\
      forall v, v < size s ->
        (nth v (data mean') NaN, nth v (data S') NaN)
        = welford_run n (column arrays v)
            (nth v (data mean_arr) NaN, nth v (data S_arr) NaN).
Proof.
  induction 1 as [|p a paths arrays Hr HF IH];
    intros Hall mean_arr S_arr n Hm Hs Em Es.
  - exists mean_arr, S_arr. cbn [foldM length]. rewrite Nat.add_0_r.
    repeat split; auto.
  - apply Forall_cons_iff in Hall. destruct Hall as [[Ea Ha] Hall'].
    cbn [foldM]. rewrite (welford_step_same_shape mean_arr S_arr n p a)
      by (assumption || congruence).
    cbn [bind].
    assert (Lm : length (data mean_arr) = length (data a))
      by (unfold wf in *; congruence).
    assert (Ls : length (data S_arr) = length (data a))
      by (unfold wf in *; congruence).
    destruct (welford_data_length (n + 1) (data a) (data mean_arr)
                (data S_arr) Lm Ls) as [L1 L2].
    set (m1 := mk_nd (shape a) (fst (welford_data (n + 1) (data a)
                                       (data mean_arr) (data S_arr)))).
    set (s1 := mk_nd (shape a) (snd (welford_data (n + 1) (data a)
                                       (data mean_arr) (data S_arr)))).
    assert (W1 : wf m1) by (unfold wf, m1; cbn [shape data]; rewrite L1; exact Ha).
    assert (W2 : wf s1) by (unfold wf, s1; cbn [shape data]; rewrite L2; exact Ha).
    destruct (IH Hall' m1 s1 (n + 1) W1 W2 Ea Ea)
      as [mean' [S' [E [Hm' [Hs' [Wm [Ws Hv]]]]]]].
    exists mean', S'. rewrite E. cbn [length].
    replace (n + S (length arrays)) with (n + 1 + length arrays) by lia.
    repeat split; auto.
    intros v Hlt. rewrite (Hv v Hlt). unfold m1, s1.
    cbn [column map welford_run data].
    rewrite welford_data_nth; try assumption;
      [| unfold wf in Ha; rewrite Ha, Ea; exact Hlt].
    replace (S n) with (n + 1) by lia. reflexivity.
Qed.

End Welford.

(** ** Welford's recurrence on one voxel *)

Lemma Qc_of_nat_S (k : nat) : Qc_of_nat (S k) = (Qc_of_nat k + 1)%Qc.
Proof.
  apply Qc_is_canon. unfold Qc_of_nat, Qcplus. cbn [this Q2Qc].
  rewrite !Qred_correct. rewrite Nat2Z.inj_succ. unfold Z.succ.
  rewrite inject_Z_plus. reflexivity.
Qed.

Lemma Qc_of_nat_nonneg (k : nat) : (0 <= Qc_of_nat k)%Qc.
Proof.
  unfold Qcle, Qc_of_nat. cbn [this Q2Qc]. rewrite !Qred_correct.
  unfold Qle. simpl. lia.
Qed.

Lemma Qc_succ_pos (K : Qc) : (0 <= K)%Qc -> (0 < K + 1)%Qc.
Proof. intros H. qc_order. Qed.

Lemma Qc_of_nat_S_neq (k : nat) : Qc_of_nat (S k) <> 0%Qc.
Proof.
  rewrite Qc_of_nat_S. intros E.
  pose proof (Qc_succ_pos _ (Qc_of_nat_nonneg k)) as H.
  rewrite E in H. exact (Qclt_not_eq _ _ H eq_refl).
Qed.

Lemma xdiv_of_nat_S (a : Qc) (k : nat) :
  xdiv (Fin a) (of_nat (S k)) = Fin (a / Qc_of_nat (S k))%Qc.
Proof.
  unfold of_nat. simpl.
  rewrite (proj2 (Qc_eqb_false _ _) (Qc_of_nat_S_neq k)). reflexivity.
Qed.







(** ** The accumulator against the two-pass statistics *)

Lemma list_eq_by_nth {A : Type} (d : A) (f : nat -> A) l N :
  length l = N -> (forall v, v < N -> nth v l d = f v) ->
  l = map f (seq 0 N).
Proof.
  intros HL H. rewrite <- (map_nth_seq d l) at 1. rewrite HL.
  apply map_ext_in. intros v Hv. apply in_seq in Hv. apply H. lia.
Qed.

Lemma nth_repeat_lt {A : Type} (x d : A) n v :
  v < n -> nth v (repeat x n) d = x.
Proof.
  revert v. induction n as [|n IH]; intros [|v] H; simpl; try lia;
    [reflexivity|].
  apply IH. lia.
Qed.



Lemma zeros_wf s : wf (zeros s).
Proof. unfold wf, zeros. simpl. apply repeat_length. Qed.

Section TwoPass.

Variable np_load : string -> result (ndarray xfloat).
Variable nrrd_read : string -> result (ndarray xfloat).

Let read := read_array np_load nrrd_read.
Let step := welford_step np_load nrrd_read.
Let calc := calculate_online_stats_3d np_load nrrd_read.




End TwoPass.


(** ** Sorting the p-values *)

Lemma Qc_leb_refl (a : Qc) : Qc_leb a a = true.
Proof. apply Qc_leb_true. apply Qcle_refl. Qed.

Lemma Qc_leb_total (a b : Qc) : Qc_leb a b = false -> Qc_leb b a = true.
Proof.
  intros H. apply Qc_leb_true. destruct (Qclt_le_dec b a) as [L|L].
  - apply Qclt_le_weak. exact L.
  - apply Qc_leb_true in L. congruence.
Qed.

Lemma Qc_leb_trans (a b c : Qc) :
  Qc_leb a b = true -> Qc_leb b c = true -> Qc_leb a c = true.
Proof.
  rewrite !Qc_leb_true. apply Qcle_trans.
Qed.

Lemma sort_leb_refl (x : xfloat) : sort_leb x x = true.
Proof. destruct x; simpl; auto using Qc_leb_refl. Qed.

Lemma sort_leb_total (x y : xfloat) :
  sort_leb x y = false -> sort_leb y x = true.
Proof.
  destruct x, y; simpl; try congruence. apply Qc_leb_total.
Qed.

Lemma sort_leb_trans (x y z : xfloat) :
  sort_leb x y = true -> sort_leb y z = true -> sort_leb x z = true.
Proof.
  destruct x, y, z; simpl; try congruence. apply Qc_leb_trans.
Qed.

Lemma sort_leb_finite (x y : xfloat) :
  is_finite x = true -> is_finite y = true -> sort_leb x y = xleb x y.
Proof. destruct x, y; simpl; congruence. Qed.

Section Argsort.

Variable key : nat -> xfloat.

Let le_key (i j : nat) : Prop := sort_leb (key i) (key j) = true.

Lemma insert_by_perm i l : Permutation (insert_by key i l) (i :: l).
Proof.
  induction l as [|j l IH]; simpl; [apply Permutation_refl|].
  destruct (sort_leb (key i) (key j)); [apply Permutation_refl|].
  apply Permutation_trans with (j :: i :: l).
  - apply perm_skip. exact IH.
  - apply perm_swap.
Qed.

Lemma insert_by_sorted i l :
  StronglySorted le_key l -> StronglySorted le_key (insert_by key i l).
Proof.
  induction 1 as [|j l Hs IH Hj]; simpl.
  - constructor; constructor.
  - destruct (sort_leb (key i) (key j)) eqn:E.
    + constructor; [constructor; assumption|].
      constructor; [exact E|].
      rewrite Forall_forall in *. intros k Hk.
      apply (sort_leb_trans _ (key j)); [exact E|]. apply Hj. exact Hk.
    + constructor; [exact IH|].
      rewrite Forall_forall in *. intros k Hk.
      apply (Permutation_in _ (insert_by_perm i l)) in Hk.
      destruct Hk as [<-|Hk].
      * apply sort_leb_total. exact E.
      * apply Hj. exact Hk.
Qed.

Lemma fold_insert_perm l :
  Permutation (fold_right (insert_by key) [] l) l.
Proof.
  induction l as [|i l IH]; simpl; [constructor|].
  apply Permutation_trans with (i :: fold_right (insert_by key) [] l).
  - apply insert_by_perm.
  - apply perm_skip. exact IH.
Qed.

Lemma fold_insert_sorted l :
  StronglySorted le_key (fold_right (insert_by key) [] l).
Proof.
  induction l as [|i l IH]; simpl; [constructor|].
  apply insert_by_sorted. exact IH.
Qed.

Lemma strongly_sorted_nth l :
  StronglySorted le_key l ->
  forall r1 r2, r1 <= r2 -> r2 < length l ->
    le_key (nth r1 l 0) (nth r2 l 0).
Proof.
  induction 1 as [|j l Hs IH Hj]; intros r1 r2 Hle Hlt; simpl in Hlt; [lia|].
  destruct r1 as [|r1], r2 as [|r2]; simpl; try lia.
  - apply sort_leb_refl.
  - rewrite Forall_forall in Hj. apply Hj. apply nth_In. lia.
  - apply IH; lia.
Qed.

End Argsort.

Lemma argsort_perm ps : Permutation (argsort ps) (seq 0 (length ps)).
Proof. apply fold_insert_perm. Qed.

Lemma argsort_length ps : length (argsort ps) = length ps.
Proof.
  rewrite (Permutation_length (argsort_perm ps)). apply length_seq.
Qed.

Lemma argsort_nodup ps : NoDup (argsort ps).
Proof.
  apply (Permutation_NoDup (Permutation_sym (argsort_perm ps))).
  apply seq_NoDup.
Qed.

Lemma argsort_lt ps i : In i (argsort ps) -> i < length ps.
Proof.
  intros H. apply (Permutation_in _ (argsort_perm ps)) in H.
  apply in_seq in H. lia.
Qed.

Lemma argsort_nth_lt ps r : r < length ps -> nth r (argsort ps) 0 < length ps.
Proof.
  intros H. apply argsort_lt. apply nth_In. rewrite argsort_length. exact H.
Qed.

Lemma argsort_onto ps v :
  v < length ps -> exists r, r < length ps /\ nth r (argsort ps) 0 = v.
Proof.
  intros H.
  assert (Hin : In v (argsort ps)).
  { apply (Permutation_in _ (Permutation_sym (argsort_perm ps))).
    apply in_seq. lia. }
  destruct (In_nth _ _ 0 Hin) as [r [Hr E]].
  exists r. rewrite argsort_length in Hr. auto.
Qed.

Lemma argsort_sorted ps r1 r2 :
  r1 <= r2 -> r2 < length ps ->
  sort_leb (nth (nth r1 (argsort ps) 0) ps NaN)
           (nth (nth r2 (argsort ps) 0) ps NaN) = true.
Proof.
  intros Hle Hlt.
  apply (strongly_sorted_nth (fun i => nth i ps NaN) (argsort ps)).
  - apply fold_insert_sorted.
  - exact Hle.
  - rewrite argsort_length. exact Hlt.
Qed.

(** ** The step-up rule on the sorted decisions *)

Lemma last_true_from_none i l :
  last_true_from i l = None -> forall r, r < length l -> nth r l false = false.
Proof.
  revert i. induction l as [|b l IH]; intros i H r Hr; simpl in *; [lia|].
  destruct (last_true_from (S i) l) eqn:E; [discriminate|].
  destruct b; [discriminate|].
  destruct r as [|r]; [reflexivity|]. apply (IH (S i) E). lia.
Qed.

Lemma last_true_from_some i l j :
  last_true_from i l = Some j ->
  i <= j /\ j - i < length l /\ nth (j - i) l false = true /\
  forall r, j - i < r -> r < length l -> nth r l false = false.
Proof.
  revert i j. induction l as [|b l IH]; intros i j H; simpl in *;
    [discriminate|].
  destruct (last_true_from (S i) l) as [j'|] eqn:E.
  - injection H as ->. destruct (IH (S i) j E) as [H1 [H2 [H3 H4]]].
    replace (j - i) with (S (j - S i)) by lia.
    repeat split; try lia; [exact H3|].
    intros r Hr Hl. destruct r as [|r]; [lia|]. apply H4; lia.
  - destruct b; [|discriminate]. injection H as <-.
    rewrite Nat.sub_diag. repeat split; try lia.
    intros r Hr Hl. destruct r as [|r]; [lia|].
    apply (last_true_from_none (S i) l E). lia.
Qed.

Lemma nth_fill_before k l r :
  r < length l ->
  nth r (fill_before k l) false = if r <? k then true else nth r l false.
Proof.
  intros Hr. unfold fill_before.
  rewrite (nth_zip_with _ 0 false false) by (rewrite ?length_seq; lia).
  rewrite seq_nth by lia. reflexivity.
Qed.

Lemma fill_before_length k l : length (fill_before k l) = length l.
Proof.
  unfold fill_before. rewrite zip_with_length, length_seq. lia.
Qed.

Lemma step_up_length l : length (step_up l) = length l.
Proof.
  unfold step_up. destruct (last_true l); [apply fill_before_length|reflexivity].
Qed.

(** A rank is rejected exactly when some rank at or above it passes its
    threshold. *)
Lemma step_up_spec l r :
  r < length l ->
  (nth r (step_up l) false = true <->
   exists r', r <= r' /\ r' < length l /\ nth r' l false = true).
Proof.
  intros Hr. unfold step_up, last_true.
  destruct (last_true_from 0 l) as [j|] eqn:E.
  - destruct (last_true_from_some 0 l j E) as [_ [H2 [H3 H4]]].
    rewrite Nat.sub_0_r in *. rewrite nth_fill_before by exact Hr.
    destruct (r <? j) eqn:Erj.
    + apply Nat.ltb_lt in Erj. split; [|reflexivity].
      intros _. exists j. repeat split; try lia. exact H3.
    + apply Nat.ltb_ge in Erj. split.
      * intros H. exists r. repeat split; try lia. exact H.
      * intros [r' [H1 [H5 H6]]].
        destruct (Nat.eq_dec r j) as [->|Hne]; [exact H3|].
        rewrite (H4 r') in H6 by lia. discriminate.
  - split.
    + intros H. exists r. repeat split; try lia. exact H.
    + intros [r' [_ [H5 H6]]].
      rewrite (last_true_from_none 0 l E r' H5) in H6. discriminate.
Qed.

(** ** Writing back through the sort permutation *)

Lemma update_nth_length {A : Type} i (v : A) l :
  length (update_nth i v l) = length l.
Proof.
  revert i. induction l as [|x l IH]; intros [|i]; simpl; auto.
Qed.

Lemma nth_update_nth_eq {A : Type} i (v d : A) l :
  i < length l -> nth i (update_nth i v l) d = v.
Proof.
  revert i. induction l as [|x l IH]; intros [|i] H; simpl in *; try lia;
    [reflexivity|].
  apply IH. lia.
Qed.

Lemma nth_update_nth_neq {A : Type} i j (v d : A) l :
  i <> j -> nth j (update_nth i v l) d = nth j l d.
Proof.
  revert i j. induction l as [|x l IH]; intros [|i] [|j] H; simpl;
    try reflexivity; try lia.
  apply IH. lia.
Qed.


Lemma scatter_notin {A : Type} (d : A) out idx vals i :
  ~ In i idx -> nth i (scatter out idx vals) d = nth i out d.
Proof.
  unfold scatter. revert out vals.
  induction idx as [|j idx IH]; intros out [|v vals] Hn; simpl;
    try reflexivity.
  rewrite IH by (intros H; apply Hn; right; exact H).
  apply nth_update_nth_neq. intros ->. apply Hn. left. reflexivity.
Qed.

Lemma scatter_nth {A : Type} (d : A) out idx vals r :
  NoDup idx -> length vals = length idx ->
  (forall i, In i idx -> i < length out) ->
  r < length idx ->
  nth (nth r idx 0) (scatter out idx vals) d = nth r vals d.
Proof.
  intros Hnd. revert out vals r.
  induction Hnd as [|i idx Hni Hnd IH]; intros out vals r Hl Hb Hr;
    simpl in Hr; [lia|].
  destruct vals as [|v vals]; [discriminate|].
  change (scatter out (i :: idx) (v :: vals))
    with (scatter (update_nth i v out) idx vals).
  destruct r as [|r]; simpl.
  - rewrite scatter_notin by exact Hni.
    apply nth_update_nth_eq. apply Hb. left. reflexivity.
  - apply IH.
    + simpl in Hl. lia.
    + intros j Hj. rewrite update_nth_length. apply Hb. right. exact Hj.
    + lia.
Qed.

(** ** Running minima of finite values *)

Lemma finite_inv x : finite x -> exists q, x = Fin q.
Proof. destruct x; try discriminate. eauto. Qed.

Lemma np_minimum_finite x y : finite x -> finite y -> finite (np_minimum x y).
Proof.
  intros [p ->]%finite_inv [q ->]%finite_inv. unfold np_minimum. simpl.
  destruct (Qc_leb p q); reflexivity.
Qed.

Lemma xleb_minimum x y b :
  finite x -> finite y -> finite b ->
  xleb (np_minimum x y) b = xleb x b || xleb y b.
Proof.
  intros [p ->]%finite_inv [q ->]%finite_inv [c ->]%finite_inv.
  unfold np_minimum. simpl.
  destruct (Qc_leb p q) eqn:E; simpl.
  - destruct (Qc_leb p c) eqn:E1; [reflexivity|]. simpl.
    destruct (Qc_leb q c) eqn:E2; [|reflexivity].
    rewrite (Qc_leb_trans p q c E E2) in E1. discriminate.
  - apply Qc_leb_total in E.
    destruct (Qc_leb q c) eqn:E2; [symmetry; apply orb_true_r|].
    destruct (Qc_leb p c) eqn:E1; [|reflexivity].
    rewrite (Qc_leb_trans q p c E E1) in E2. discriminate.
Qed.

Lemma accumulate_from_length f acc l :
  length (accumulate_from f acc l) = length l.
Proof.
  revert acc. induction l as [|x l IH]; intros acc; simpl; auto.
Qed.

Lemma accumulate_from_spec b l :
  finite b -> Forall finite l ->
  forall acc r, finite acc -> r < length l ->
    finite (nth r (accumulate_from np_minimum acc l) NaN) /\
    (xleb (nth r (accumulate_from np_minimum acc l) NaN) b = true <->
     xleb acc b = true \/
     exists r', r' <= r /\ xleb (nth r' l NaN) b = true).
Proof.
  intros Hb. induction 1 as [|x l Hx Hl IH]; intros acc r Hacc Hr;
    simpl in Hr; [lia|].
  pose proof (np_minimum_finite acc x Hacc Hx) as Hmin.
  destruct r as [|r]; cbn [accumulate_from nth].
  - split; [exact Hmin|].
    rewrite xleb_minimum by assumption. rewrite orb_true_iff. split.
    + intros [H|H]; [left; exact H|right; exists 0; split; [lia|exact H]].
    + intros [H|[r' [Hr' H]]]; [left; exact H|].
      right. replace r' with 0 in H by lia. exact H.
  - destruct (IH (np_minimum acc x) r Hmin ltac:(lia)) as [Hf Hiff].
    split; [exact Hf|]. rewrite Hiff.
    rewrite xleb_minimum by assumption. rewrite orb_true_iff. split.
    + intros [[H|H]|[r' [Hr' H]]].
      * left; exact H.
      * right. exists 0. split; [lia|exact H].
      * right. exists (S r'). split; [lia|exact H].
    + intros [H|[r' [Hr' H]]]; [left; left; exact H|].
      destruct r' as [|r'].
      * left; right; exact H.
      * right. exists r'. split; [lia|exact H].
Qed.

Lemma minimum_accumulate_length l :
  length (minimum_accumulate l) = length l.
Proof.
  destruct l as [|x l]; simpl; [reflexivity|].
  rewrite accumulate_from_length. reflexivity.
Qed.

Lemma minimum_accumulate_spec b l r :
  finite b -> Forall finite l -> r < length l ->
  finite (nth r (minimum_accumulate l) NaN) /\
  (xleb (nth r (minimum_accumulate l) NaN) b = true <->
   exists r', r' <= r /\ xleb (nth r' l NaN) b = true).
Proof.
  intros Hb Hl Hr. destruct l as [|x l]; simpl in Hr; [lia|].
  apply Forall_cons_iff in Hl. destruct Hl as [Hx Hl].
  destruct r as [|r]; cbn [minimum_accumulate nth].
  - split; [exact Hx|]. split.
    + intros H. exists 0. split; [lia|exact H].
    + intros [r' [Hr' H]]. replace r' with 0 in H by lia. exact H.
  - destruct (accumulate_from_spec b l Hb Hl x r Hx ltac:(lia)) as [Hf Hiff].
    split; [exact Hf|]. rewrite Hiff. split.
    + intros [H|[r' [Hr' H]]].
      * exists 0. split; [lia|exact H].
      * exists (S r'). split; [lia|exact H].
    + intros [r' [Hr' H]]. destruct r' as [|r'].
      * left; exact H.
      * right. exists r'. split; [lia|exact H].
Qed.

Lemma suffix_min_length l : length (suffix_min l) = length l.
Proof.
  unfold suffix_min. rewrite length_rev, minimum_accumulate_length, length_rev.
  reflexivity.
Qed.

(** The corrected value at a rank is at most [b] exactly when the raw
    value at some rank at or above it is. *)
Lemma suffix_min_spec b l r :
  finite b -> Forall finite l -> r < length l ->
  finite (nth r (suffix_min l) NaN) /\
  (xleb (nth r (suffix_min l) NaN) b = true <->
   exists r', r <= r' /\ r' < length l /\ xleb (nth r' l NaN) b = true).
Proof.
  intros Hb Hl Hr. unfold suffix_min.
  assert (Hrev : Forall finite (rev l)).
  { apply Forall_forall. intros x Hx. apply in_rev in Hx.
    rewrite Forall_forall in Hl. apply Hl. exact Hx. }
  rewrite rev_nth by (rewrite minimum_accumulate_length, length_rev; exact Hr).
  rewrite minimum_accumulate_length, length_rev.
  destruct (minimum_accumulate_spec b (rev l) (length l - S r) Hb Hrev)
    as [Hf Hiff]; [rewrite length_rev; lia|].
  split; [exact Hf|]. rewrite Hiff. split.
  - intros [r' [Hr' H]]. exists (length l - S r').
    rewrite rev_nth in H by lia. repeat split; try lia. exact H.
  - intros [r' [H1 [H2 H]]]. exists (length l - S r'). split; [lia|].
    rewrite rev_nth by lia.
    replace (length l - S (length l - S r')) with r' by lia. exact H.
Qed.

Lemma xleb_refl_finite x : finite x -> xleb x x = true.
Proof. intros [q ->]%finite_inv. apply Qc_leb_refl. Qed.

Lemma xleb_trans_finite x y z :
  finite x -> finite y -> finite z ->
  xleb x y = true -> xleb y z = true -> xleb x z = true.
Proof.
  intros [p ->]%finite_inv [q ->]%finite_inv [c ->]%finite_inv.
  apply Qc_leb_trans.
Qed.


Lemma clip_one_finite x : finite x -> finite (clip_one x).
Proof.
  intros [q ->]%finite_inv. unfold clip_one. destruct (xgtb _ _); reflexivity.
Qed.


Lemma clip_one_below x (a : Qc) :
  finite x -> (a < 1)%Qc ->
  xleb (clip_one x) (Fin a) = xleb x (Fin a).
Proof.
  intros [p ->]%finite_inv Ha. unfold clip_one, xgtb. simpl.
  destruct (Qc_ltb 1 p) eqn:E; [|reflexivity]. simpl.
  apply Qc_ltb_true in E.
  destruct (Qc_leb 1 a) eqn:E1.
  - apply Qc_leb_true in E1. exfalso. exact (Qclt_not_le _ _ Ha E1).
  - destruct (Qc_leb p a) eqn:E2; [|reflexivity].
    apply Qc_leb_true in E2. exfalso.
    apply (Qclt_not_le _ _ Ha). apply Qclt_le_weak.
    apply (Qclt_le_trans _ p); assumption.
Qed.

(** ** Thresholds and corrected values at one rank *)

Lemma Qc_of_nat_S_pos (k : nat) : (0 < Qc_of_nat (S k))%Qc.
Proof.
  rewrite Qc_of_nat_S. apply Qc_succ_pos. apply Qc_of_nat_nonneg.
Qed.

Lemma xdiv_nat_nat (r m : nat) :
  xdiv (of_nat r) (of_nat (S m)) = Fin (Qc_of_nat r / Qc_of_nat (S m))%Qc.
Proof. apply xdiv_of_nat_S. Qed.

Lemma Qc_of_nat_le (n m : nat) : n <= m -> (Qc_of_nat n <= Qc_of_nat m)%Qc.
Proof.
  intros H. unfold Qcle, Qc_of_nat. cbn [this Q2Qc]. rewrite !Qred_correct.
  unfold Qle. simpl. lia.
Qed.

Lemma Qc_mul_le_iff (x y z : Qc) :
  (0 < z)%Qc -> (x <= y <-> x * z <= y * z)%Qc.
Proof.
  intros Hz. split.
  - intros H. apply Qcmult_le_compat_r; [exact H|].
    apply Qclt_le_weak. exact Hz.
  - apply Qcmult_lt_0_le_reg_r. exact Hz.
Qed.

Lemma Qc_pos_neq (z : Qc) : (0 < z)%Qc -> z <> 0%Qc.
Proof. intros H E. rewrite E in H. exact (Qclt_not_eq _ _ H eq_refl). Qed.

Lemma Qc_ratio_neq (R M : Qc) : (0 < R)%Qc -> (0 < M)%Qc -> (R / M)%Qc <> 0%Qc.
Proof.
  intros HR HM E. apply (Qc_pos_neq R HR).
  replace R with (R / M * M)%Qc by (field; apply Qc_pos_neq; exact HM).
  rewrite E. ring.
Qed.

(** [p <= (i/m) * alpha] and [p / (i/m) <= alpha] say the same. *)
Lemma threshold_iff (p a R M : Qc) :
  (0 < R)%Qc -> (0 < M)%Qc ->
  (p <= R / M * a <-> p / (R / M) <= a)%Qc.
Proof.
  intros HR HM.
  pose proof (Qc_pos_neq R HR) as HR0. pose proof (Qc_pos_neq M HM) as HM0.
  rewrite (Qc_mul_le_iff p (R / M * a) M HM).
  rewrite (Qc_mul_le_iff (p / (R / M)) a R HR).
  replace (R / M * a * M)%Qc with (a * R)%Qc by (field; exact HM0).
  replace (p / (R / M) * R)%Qc with (p * M)%Qc by (field; auto).
  reflexivity.
Qed.

Lemma xleb_threshold (p a : Qc) (r m : nat) :
  xleb (xdiv (Fin p) (xdiv (of_nat (S r)) (of_nat (S m)))) (Fin a)
  = xleb (Fin p) (xmul (xdiv (of_nat (S r)) (of_nat (S m))) (Fin a)).
Proof.
  rewrite xdiv_nat_nat. pose proof (Qc_of_nat_S_pos r) as HR.
  pose proof (Qc_of_nat_S_pos m) as HM.
  cbn [xdiv xmul xleb].
  rewrite (proj2 (Qc_eqb_false _ _) (Qc_ratio_neq _ _ HR HM)).
  cbn [xleb].
  destruct (Qc_leb (p / (Qc_of_nat (S r) / Qc_of_nat (S m))) a) eqn:E1;
    destruct (Qc_leb p (Qc_of_nat (S r) / Qc_of_nat (S m) * a)) eqn:E2;
    try reflexivity.
  - apply Qc_leb_true in E1. apply threshold_iff in E1; try assumption.
    apply Qc_leb_true in E1. congruence.
  - apply Qc_leb_true in E2. apply threshold_iff in E2; try assumption.
    apply Qc_leb_true in E2. congruence.
Qed.

Lemma raw_finite (p : Qc) (r m : nat) :
  finite (xdiv (Fin p) (xdiv (of_nat (S r)) (of_nat (S m)))).
Proof.
  rewrite xdiv_nat_nat. cbn [xdiv].
  rewrite (proj2 (Qc_eqb_false _ _)
             (Qc_ratio_neq _ _ (Qc_of_nat_S_pos r) (Qc_of_nat_S_pos m))).
  reflexivity.
Qed.



Lemma nth_map_seq {A : Type} (f : nat -> A) (d : A) a n r :
  r < n -> nth r (map f (seq a n)) d = f (a + r).
Proof.
  intros H. rewrite (nth_indep _ d (f 0)) by (rewrite length_map, length_seq; exact H).
  rewrite map_nth, seq_nth by exact H. reflexivity.
Qed.

Lemma ecdf_length m : length (ecdf m) = m.
Proof. unfold ecdf. rewrite length_map, length_seq. reflexivity. Qed.

Lemma nth_ecdf m r :
  r < m -> nth r (ecdf m) NaN = xdiv (of_nat (S r)) (of_nat m).
Proof. intros H. unfold ecdf. rewrite nth_map_seq by exact H. reflexivity. Qed.

Lemma take_length ps idx : length (take ps idx) = length idx.
Proof. unfold take. apply length_map. Qed.

Lemma nth_take ps idx r :
  r < length idx -> nth r (take ps idx) NaN = nth (nth r idx 0) ps NaN.
Proof.
  intros H. unfold take.
  rewrite (nth_indep _ NaN (nth 0 ps NaN)) by (rewrite length_map; exact H).
  apply (map_nth (fun i => nth i ps NaN)).
Qed.

Lemma nth_finite l r : Forall finite l -> r < length l -> finite (nth r l NaN).
Proof.
  intros Hl Hr. rewrite Forall_forall in Hl. apply Hl. apply nth_In. exact Hr.
Qed.

Lemma forall_finite_nth l :
  (forall r, r < length l -> finite (nth r l NaN)) -> Forall finite l.
Proof.
  intros H. apply Forall_forall. intros x Hx.
  destruct (In_nth _ _ NaN Hx) as [r [Hr <-]]. apply H. exact Hr.
Qed.

(** ** The correction on a list of finite p-values *)

Lemma fdrcorrection_unfold ps alpha :
  fdrcorrection ps alpha
  = (scatter (repeat false (length ps)) (argsort ps)
       (step_up (zip_with (fun p e => xleb p (xmul e alpha))
                   (take ps (argsort ps)) (ecdf (length ps)))),
     scatter (repeat NaN (length ps)) (argsort ps)
       (map clip_one
          (suffix_min (zip_with xdiv (take ps (argsort ps))
                         (ecdf (length ps)))))).
Proof.
  unfold fdrcorrection. cbv zeta.
  rewrite take_length, argsort_length.
  change (match last_true ?l with
          | Some rejectmax => fill_before rejectmax ?l
          | None => ?l
          end) with (step_up l).
  change (rev (minimum_accumulate (rev ?l))) with (suffix_min l).
  change (fun x : xfloat => if xgtb x xone then xone else x) with clip_one.
  rewrite step_up_length, length_map, suffix_min_length, !zip_with_length.
  rewrite take_length, argsort_length, ecdf_length, Nat.min_id.
  reflexivity.
Qed.

Section Correction.

Variable ps : list xfloat.
Variable a : Qc.
Hypothesis ps_finite : Forall finite ps.
Hypothesis a_pos : (0 < a)%Qc.
Hypothesis a_below_one : (a < 1)%Qc.

Let m := length ps.
Let order := argsort ps.
Let sorted := take ps order.
Let rejected := fst (fdrcorrection ps (Fin a)).
Let corrected := snd (fdrcorrection ps (Fin a)).

(** The p-value of rank [r] (from 0) and its threshold [(r+1)/m * alpha]. *)
Let pv (r : nat) : xfloat := nth (nth r order 0) ps NaN.
Let thr (r : nat) : xfloat := xmul (xdiv (of_nat (S r)) (of_nat m)) (Fin a).

Let reject0 :=
  zip_with (fun p e => xleb p (xmul e (Fin a))) sorted (ecdf m).
Let raw := zip_with xdiv sorted (ecdf m).

Lemma order_length : length order = m.
Proof. apply argsort_length. Qed.

Lemma sorted_length : length sorted = m.
Proof. unfold sorted. rewrite take_length. apply order_length. Qed.

Lemma sorted_nth r : r < m -> nth r sorted NaN = pv r.
Proof. intros H. apply nth_take. rewrite order_length. exact H. Qed.

Lemma pv_finite r : r < m -> finite (pv r).
Proof.
  intros H. apply nth_finite; [exact ps_finite|].
  apply argsort_nth_lt. exact H.
Qed.

Lemma pv_sorted r1 r2 : r1 <= r2 -> r2 < m -> xleb (pv r1) (pv r2) = true.
Proof.
  intros Hle Hlt. rewrite <- sort_leb_finite by (apply pv_finite; lia).
  apply argsort_sorted; assumption.
Qed.

Lemma reject0_length : length reject0 = m.
Proof.
  unfold reject0. rewrite zip_with_length, sorted_length, ecdf_length.
  apply Nat.min_id.
Qed.

Lemma reject0_nth r : r < m -> nth r reject0 false = xleb (pv r) (thr r).
Proof.
  intros H. unfold reject0.
  rewrite (nth_zip_with _ NaN NaN false)
    by (rewrite ?sorted_length, ?ecdf_length; exact H).
  rewrite sorted_nth, nth_ecdf by exact H. reflexivity.
Qed.

Lemma raw_length : length raw = m.
Proof.
  unfold raw. rewrite zip_with_length, sorted_length, ecdf_length.
  apply Nat.min_id.
Qed.

Lemma raw_nth r :
  r < m -> nth r raw NaN = xdiv (pv r) (xdiv (of_nat (S r)) (of_nat m)).
Proof.
  intros H. unfold raw.
  rewrite (nth_zip_with _ NaN NaN NaN)
    by (rewrite ?sorted_length, ?ecdf_length; exact H).
  rewrite sorted_nth, nth_ecdf by exact H. reflexivity.
Qed.

Lemma raw_all_finite : Forall finite raw.
Proof.
  apply forall_finite_nth. intros r Hr. rewrite raw_length in Hr.
  rewrite raw_nth by exact Hr.
  destruct (finite_inv _ (pv_finite r Hr)) as [p ->].
  destruct m as [|m']; [lia|]. apply raw_finite.
Qed.

Lemma raw_below r :
  r < m -> xleb (nth r raw NaN) (Fin a) = xleb (pv r) (thr r).
Proof.
  intros Hr. rewrite raw_nth by exact Hr. unfold thr.
  destruct (finite_inv _ (pv_finite r Hr)) as [p ->].
  destruct m as [|m']; [lia|]. apply xleb_threshold.
Qed.



Lemma rejected_rank r :
  r < m -> nth (nth r order 0) rejected false = nth r (step_up reject0) false.
Proof.
  intros Hr. unfold rejected. rewrite fdrcorrection_unfold. cbn [fst].
  apply scatter_nth.
  - apply argsort_nodup.
  - rewrite step_up_length. fold m sorted reject0.
    rewrite reject0_length. symmetry. apply order_length.
  - intros i Hi. rewrite repeat_length. apply argsort_lt. exact Hi.
  - fold order. rewrite order_length. exact Hr.
Qed.

Lemma corrected_rank r :
  r < m ->
  nth (nth r order 0) corrected NaN = clip_one (nth r (suffix_min raw) NaN).
Proof.
  intros Hr. unfold corrected. rewrite fdrcorrection_unfold. cbn [snd].
  fold m order sorted raw.
  rewrite (scatter_nth NaN).
  - exact (map_nth clip_one (suffix_min raw) NaN r).
  - apply argsort_nodup.
  - rewrite length_map, suffix_min_length, raw_length. symmetry.
    apply order_length.
  - intros i Hi. rewrite repeat_length. apply argsort_lt. exact Hi.
  - rewrite order_length. exact Hr.
Qed.

(** Step-up: the voxel of rank [r] is significant exactly when some rank
    at or above [r] has its p-value at most its threshold. *)
Lemma rejected_step_up r :
  r < m ->
  (nth (nth r order 0) rejected false = true <->
   exists r', r <= r' /\ r' < m /\ xleb (pv r') (thr r') = true).
Proof.
  intros Hr. rewrite rejected_rank by exact Hr.
  rewrite step_up_spec by (rewrite reject0_length; exact Hr).
  rewrite reject0_length. split; intros [r' [H1 [H2 H3]]]; exists r';
    repeat split; try assumption.
  - rewrite <- reject0_nth; assumption.
  - rewrite reject0_nth; assumption.
Qed.

Lemma corrected_finite r : r < m -> finite (nth (nth r order 0) corrected NaN).
Proof.
  intros Hr. rewrite corrected_rank by exact Hr. apply clip_one_finite.
  apply (suffix_min_spec xzero); [reflexivity|apply raw_all_finite|].
  rewrite raw_length. exact Hr.
Qed.

Lemma corrected_below r :
  r < m ->
  (xleb (nth (nth r order 0) corrected NaN) (Fin a) = true <->
   exists r', r <= r' /\ r' < m /\ xleb (pv r') (thr r') = true).
Proof.
  intros Hr. rewrite corrected_rank by exact Hr.
  assert (Hrl : r < length raw) by (rewrite raw_length; exact Hr).
  destruct (suffix_min_spec (Fin a) raw r eq_refl raw_all_finite Hrl)
    as [Hf Hiff].
  rewrite clip_one_below by assumption. rewrite Hiff, raw_length.
  split; intros [r' [H1 [H2 H3]]]; exists r'; repeat split; try assumption.
  - rewrite <- raw_below; assumption.
  - rewrite raw_below; assumption.
Qed.


(** The mask marks exactly the voxels whose corrected p-value is at most
    [alpha]. *)
Lemma rejected_iff_corrected v :
  v < m ->
  (nth v rejected false = true <-> xleb (nth v corrected NaN) (Fin a) = true).
Proof.
  intros Hv. destruct (argsort_onto ps v Hv) as [r [Hr <-]].
  fold order. rewrite rejected_step_up, corrected_below by exact Hr.
  reflexivity.
Qed.



End Correction.

(** ** The correction on a volume *)

(** The comparison corrects the flattened uncorrected p-values and gives
    the results the shape of that volume. *)
Lemma compare_uses_fdrcorrection np_load nrrd_read np_sqrt stdtr A B alpha r :
  compare_groups_voxelwise np_load nrrd_read np_sqrt stdtr A B alpha = Ok r ->
  significant_mask_fdr r
  = reshape (fst (fdrcorrection (flatten (p_values_uncorrected r)) alpha))
      (shape (p_values_uncorrected r)) /\
  p_values_corrected_fdr r
  = reshape (snd (fdrcorrection (flatten (p_values_uncorrected r)) alpha))
      (shape (p_values_uncorrected r)).
Proof.
  unfold compare_groups_voxelwise. intros H.
  bind_case; [|discriminate]. destruct a as [[mA vA] nA].
  bind_case; [|discriminate]. destruct a as [[mB vB] nB].
  destruct ((nA <? 2) || (nB <? 2)); [discriminate|].
  destruct mA, vA, mB, vB; try discriminate.
  bind_case; [|discriminate]. destruct a as [t p].
  bind_case; [|discriminate].
  injection H as <-. split; reflexivity.
Qed.



(** With the larger difference at index 1 the loop does return it. *)
Lemma projection_keeps_later_argmax :
  signed_projection ray_mask (arr (2, 1, 1) [1; -5]%Z) 0
  = Ok [[of_Z (-5)]].
Proof. reflexivity. Qed.

(** * Further properties of the code *)

(** ** What the accumulator returns *)

Section AccumulatorResult.

Variable np_load : string -> result (ndarray xfloat).
Variable nrrd_read : string -> result (ndarray xfloat).

Let read := read_array np_load nrrd_read.
Let step := welford_step np_load nrrd_read.
Let calc := calculate_online_stats_3d np_load nrrd_read.

Lemma welford_step_ok st path mean' S' n' :
  step st path = Ok (mean', S', n') ->
  n' = snd st + 1 /\
  shape mean' = shape (fst (fst st)) /\ shape S' = shape (snd (fst st)).
Proof.
  destruct st as [[mean_arr S_arr] n]. unfold step, welford_step.
  intros H.
  bind_case; [|discriminate]. bind_case; [|discriminate].
  bind_case; [|discriminate]. bind_case; [|discriminate].
  bind_case; [|discriminate]. bind_case; [|discriminate].
  injection H as <- <- <-. cbn [fst snd].
  unfold nd_iadd in *.
  repeat split; eapply inplace2_shape; eassumption.
Qed.

Lemma foldM_step_ok paths :
  forall st mean' S' n',
    foldM step paths st = Ok (mean', S', n') ->
    n' = snd st + length paths /\
    shape mean' = shape (fst (fst st)) /\ shape S' = shape (snd (fst st)).
Proof.
  induction paths as [|p paths IH]; intros st mean' S' n' H.
  - cbn [foldM] in H. injection H as ->. cbn [length fst snd].
    repeat split. lia.
  - cbn [foldM] in H. destruct (step st p) as [[[m1 s1] n1]|] eqn:E;
      [|discriminate].
    cbn [bind] in H. apply IH in H. cbn [fst snd] in H.
    apply welford_step_ok in E. cbn [length].
    destruct H as [H1 [H2 H3]], E as [E1 [E2 E3]].
    repeat split; try congruence. lia.
Qed.

(** When the accumulator returns, the count is the number of paths; for
    the empty sequence both volumes are [None], otherwise the first file
    was read and both volumes have its shape. *)
Theorem accumulator_count_and_shape paths m v n :
  calc paths = Ok (m, v, n) ->
  n = length paths /\
  (paths = [] -> m = None /\ v = None) /\
  (forall p ps, paths = p :: ps ->
     exists first mean_arr variance_arr,
       read p = Ok first /\ m = Some mean_arr /\ v = Some variance_arr /\
       shape mean_arr = shape first /\ shape variance_arr = shape first).
Proof.
  unfold calc, calculate_online_stats_3d. intros H.
  destruct paths as [|p ps].
  - injection H as <- <- <-. repeat split; try reflexivity. discriminate.
  - fold read in H. destruct (read p) as [first|] eqn:Er; [|discriminate].
    cbn [bind] in H.
    destruct (foldM _ (p :: ps) _) as [[[mean' S'] n']|] eqn:E;
      [|discriminate].
    cbn [bind] in H. injection H as <- <- <-.
    apply foldM_step_ok in E. cbn [fst snd zeros shape] in E.
    destruct E as [E1 [E2 E3]].
    split; [exact E1|]. split; [discriminate|].
    intros p' ps' Heq. injection Heq as <- <-.
    exists first, mean'. eexists. repeat split; try reflexivity; try assumption.
    destruct (n' <? 2); cbn [zeros nd_div_scalar nd_map shape]; assumption.
Qed.

End AccumulatorResult.

Lemma accumulator_count_and_shape_witness :
  exists m v n, sample_calc group_x = Ok (m, v, n) /\ n = 3.
Proof.
  destruct (sample_calc group_x) as [[[m v] n]|e] eqn:E.
  - exists m, v, n. split; [reflexivity|].
    exact (proj1 (accumulator_count_and_shape sample_load sample_load
                    group_x m v n E)).
  - vm_compute in E. discriminate E.
Defined.

Lemma welford_first (x : xfloat) :
  fst (welford_update 1 x (xzero, xzero)) = x.
Proof.
  unfold welford_update. cbn [fst]. destruct x as [q| | |]; try reflexivity.
  unfold xsub. cbn [xopp xzero xadd]. rewrite (xdiv_of_nat_S _ 0).
  cbn [xadd]. f_equal.
  change (Qc_of_nat 1) with 1%Qc. field. discriminate.
Qed.

Section SingleArray.

Variable np_load : string -> result (ndarray xfloat).
Variable nrrd_read : string -> result (ndarray xfloat).

Let read := read_array np_load nrrd_read.
Let calc := calculate_online_stats_3d np_load nrrd_read.

(** One readable array: the mean is that array, whatever its samples
    (NaN and infinities included), the variance is a volume of zeros and
    the count is 1. *)
Theorem single_array_degenerate p x :
  read p = Ok x -> wf x ->
  calc [p] = Ok (Some x, Some (zeros (shape x)), 1).
Proof.
  intros Hr Hx. unfold calc, calculate_online_stats_3d. fold read.
  rewrite Hr. cbn [bind foldM].
  rewrite (welford_step_same_shape np_load nrrd_read (zeros (shape x))
             (zeros (shape x)) 0 p x Hr Hx (zeros_wf _) (zeros_wf _)
             eq_refl eq_refl).
  cbn [bind Nat.add Nat.ltb Nat.leb shape]. do 3 f_equal.
  destruct x as [s d]. cbn [shape data zeros] in *. f_equal.
  unfold wf in Hx. cbn [shape data] in Hx.
  assert (HL : length (repeat xzero (size s)) = length d)
    by (rewrite repeat_length; congruence).
  rewrite (list_eq_by_nth NaN (fun v => nth v d NaN)
             (fst (welford_data 1 d (repeat xzero (size s))
                     (repeat xzero (size s)))) (length d)).
  - rewrite map_nth_seq. reflexivity.
  - apply (welford_data_length 1 d _ _ HL HL).
  - intros v Hv.
    pose proof (welford_data_nth 1 d _ _ v HL HL Hv) as E.
    apply (f_equal fst) in E. cbn [fst] in E. rewrite E.
    rewrite nth_repeat_lt by congruence. apply welford_first.
Qed.

End SingleArray.

Lemma single_array_degenerate_witness :
  sample_calc ["nan.npy"%string]
  = Ok (Some (mk_nd (2, 1, 2) [NaN; Fin 1%Qc; PInf; Fin 0%Qc]),
        Some (zeros (2, 1, 2)), 1).
Proof.
  apply (single_array_degenerate sample_load sample_load); reflexivity.
Defined.

Lemma foldM_app {A S : Type} (step : S -> A -> result S) l1 l2 st :
  foldM step (l1 ++ l2) st = bind (foldM step l1 st) (foldM step l2).
Proof.
  revert st. induction l1 as [|x l1 IH]; intros st; [reflexivity|].
  cbn [app foldM]. destruct (step st x); [apply IH|reflexivity].
Qed.

Section ReadFailure.

Variable np_load : string -> result (ndarray xfloat).
Variable nrrd_read : string -> result (ndarray xfloat).

Let read := read_array np_load nrrd_read.
Let calc := calculate_online_stats_3d np_load nrrd_read.

(** A file that cannot be read is not skipped: after any number of
    well-formed arrays of one shape, the error of the first unreadable
    file is the error of the accumulator. *)
Theorem unreadable_file_aborts before arrays s p rest e :
  Forall2 (fun q a => read q = Ok a) before arrays ->
  Forall (fun a => shape a = s /\ wf a) arrays ->
  read p = Err e ->
  calc (before ++ p :: rest) = Err e.
Proof.
  intros HF Hall Hp. unfold calc, calculate_online_stats_3d.
  destruct HF as [|q a qs rest' Hq HF'].
  - cbn [app]. fold read. rewrite Hp. reflexivity.
  - pose proof (Forall2_cons q a Hq HF') as HF.
    assert (Ea : shape a = s) by (inversion Hall; tauto).
    change ((q :: qs) ++ p :: rest) with (q :: (qs ++ p :: rest)).
    cbv iota beta. fold read. rewrite Hq. cbn [bind].
    change (q :: (qs ++ p :: rest)) with ((q :: qs) ++ p :: rest).
    rewrite foldM_app, Ea.
    destruct (foldM_welford np_load nrrd_read (q :: qs) (a :: rest') s HF
                Hall (zeros s) (zeros s) 0 (zeros_wf s) (zeros_wf s)
                eq_refl eq_refl)
      as [mean' [S' [E _]]].
    rewrite E. cbn [bind foldM]. unfold welford_step. fold read.
    rewrite Hp. reflexivity.
Qed.

End ReadFailure.

Lemma unreadable_file_aborts_witness :
  sample_calc ["x1.nrrd"; "x2.nrrd"; "missing.nrrd"; "x3.nrrd"]%string
  = Err (IOError "missing.nrrd").
Proof.
  apply (unreadable_file_aborts sample_load sample_load
           ["x1.nrrd"; "x2.nrrd"]%string [x1_array; x2_array] (2, 1, 2)).
  - repeat constructor.
  - repeat constructor.
  - reflexivity.
Defined.

(** ** The variance is never negative *)


Lemma Qc_plus_nonneg (x y : Qc) : (0 <= x -> 0 <= y -> 0 <= x + y)%Qc.
Proof. intros Hx Hy. qc_order. Qed.





Section Variance.

Variable np_load : string -> result (ndarray xfloat).
Variable nrrd_read : string -> result (ndarray xfloat).

Let read := read_array np_load nrrd_read.
Let calc := calculate_online_stats_3d np_load nrrd_read.


End Variance.


(** ** The order of the files does not matter *)








Section Order.

Variable np_load : string -> result (ndarray xfloat).
Variable nrrd_read : string -> result (ndarray xfloat).

Let read := read_array np_load nrrd_read.
Let calc := calculate_online_stats_3d np_load nrrd_read.


End Order.


(** ** The five volumes have one shape *)

Lemma ttest_shapes np_sqrt stdtr m1 s1 n1 m2 s2 n2 t p :
  ttest_ind_from_stats np_sqrt stdtr m1 s1 n1 m2 s2 n2 = Ok (t, p) ->
  shape s1 = shape m1 -> shape s2 = shape m2 ->
  broadcast_shapes (shape m1) (shape m2) = Some (shape t) /\
  shape p = shape t.
Proof.
  unfold ttest_ind_from_stats, unequal_var_ttest_denom.
  unfold nd_add, nd_div, nd_sub. intros H E1 E2.
  bind_case; [|discriminate]. bind_case; [|discriminate].
  bind_case; [|discriminate]. cbn [bind] in H.
  bind_case; [|discriminate]. bind_case; [|discriminate].
  bind_case; [|discriminate]. injection H as <- <-.
  repeat match goal with
         | E : broadcast2 _ _ _ _ _ = Ok _ |- _ =>
             apply broadcast2_shape in E;
             cbn [nd_div_scalar nd_square nd_map shape] in E
         end.
  rewrite E1, E2 in *.
  repeat match goal with
         | H : broadcast_shapes (shape ?x) _ = _ |- _ =>
             lazymatch goal with
             | _ : broadcast_shapes (shape x) (shape x) = Some (shape x) |- _ =>
                 fail
             | _ => pose proof (broadcast_shapes_same (shape x))
             end
         end.
  split; congruence.
Qed.

Lemma calc_variance_shape np_load nrrd_read paths m v n :
  calculate_online_stats_3d np_load nrrd_read paths = Ok (Some m, Some v, n) ->
  shape v = shape m.
Proof.
  unfold calculate_online_stats_3d. intros H.
  destruct paths as [|p ps]; [discriminate|].
  destruct (read_array np_load nrrd_read p) as [first|]; [|discriminate].
  cbn [bind] in H.
  destruct (foldM _ (p :: ps) _) as [[[mean' S'] n']|] eqn:E0;
    [|discriminate].
  cbn [bind] in H. injection H as <- <- <-.
  apply foldM_step_ok in E0. cbn [fst snd zeros shape] in E0.
  destruct E0 as [_ [E1 E2]].
  destruct (n' <? 2); cbn [zeros nd_div_scalar nd_map shape]; congruence.
Qed.

Section ResultShape.

Variable np_load : string -> result (ndarray xfloat).
Variable nrrd_read : string -> result (ndarray xfloat).
Variable np_sqrt : xfloat -> xfloat.
Variable stdtr : xfloat -> xfloat -> xfloat.

Let calc := calculate_online_stats_3d np_load nrrd_read.
Let compare := compare_groups_voxelwise np_load nrrd_read np_sqrt stdtr.

(** Whenever the comparison returns, its five volumes have one shape:
    the shape numpy broadcasts the two group means to. *)
Theorem result_volumes_share_shape A B alpha r :
  compare A B alpha = Ok r ->
  shape (p_values_uncorrected r) = shape (t_statistics r) /\
  shape (p_values_corrected_fdr r) = shape (t_statistics r) /\
  shape (significant_mask_fdr r) = shape (t_statistics r) /\
  shape (mean_diff r) = shape (t_statistics r) /\
  exists mean_A var_A n_A mean_B var_B n_B,
    calc A = Ok (Some mean_A, var_A, n_A) /\
    calc B = Ok (Some mean_B, var_B, n_B) /\
    broadcast_shapes (shape mean_A) (shape mean_B)
    = Some (shape (t_statistics r)).
Proof.
  unfold compare, compare_groups_voxelwise. fold calc. intros H.
  destruct (calc A) as [[[mA vA] nA]|] eqn:EA; [|discriminate].
  destruct (calc B) as [[[mB vB] nB]|] eqn:EB; [|discriminate].
  cbn [bind] in H.
  destruct ((nA <? 2) || (nB <? 2)); [discriminate|].
  destruct mA as [mA|], vA as [vA|], mB as [mB|], vB as [vB|];
    try discriminate.
  destruct (ttest_ind_from_stats _ _ _ _ _ _ _ _) as [[t p]|] eqn:Et;
    [|discriminate].
  cbn [bind] in H.
  destruct (fdrcorrection _ _) as [rejected corrected].
  destruct (nd_sub mB mA) as [d|] eqn:Ed; [|discriminate].
  cbn [bind] in H. injection H as <-.
  cbn [t_statistics p_values_uncorrected p_values_corrected_fdr
         significant_mask_fdr mean_diff replace_nan nd_map reshape shape].
  apply ttest_shapes in Et;
    [| cbn [nd_map shape]; eapply calc_variance_shape; eassumption
     | cbn [nd_map shape]; eapply calc_variance_shape; eassumption].
  destruct Et as [Hb Hp].
  apply broadcast2_shape in Ed. rewrite broadcast_shapes_comm in Ed.
  repeat split; try congruence.
  exists mA, (Some vA), nA, mB, (Some vB), nB. auto.
Qed.

End ResultShape.

Lemma result_volumes_share_shape_witness :
  exists r,
    sample_compare group_x group_y alpha_05 = Ok r /\
    shape (p_values_uncorrected r) = shape (t_statistics r) /\
    shape (p_values_corrected_fdr r) = shape (t_statistics r) /\
    shape (significant_mask_fdr r) = shape (t_statistics r) /\
    shape (mean_diff r) = shape (t_statistics r).
Proof.
  destruct (sample_compare group_x group_y alpha_05) as [r|e] eqn:E.
  - exists r. split; [reflexivity|].
    destruct (result_volumes_share_shape sample_load sample_load sqrt_model
                stdtr_model group_x group_y alpha_05 r E)
      as [H1 [H2 [H3 [H4 _]]]].
    auto.
  - vm_compute in E. discriminate E.
Defined.

(** ** Bounds on the corrected p-values *)

Lemma unit_interval_finite x : unit_interval x -> finite x.
Proof. intros [q [-> _]]. reflexivity. Qed.

Lemma clip_one_le_one x : finite x -> xleb (clip_one x) xone = true.
Proof.
  intros [p ->]%finite_inv. unfold clip_one, xgtb. cbn [xltb xone].
  destruct (Qc_ltb 1 p) eqn:E; cbn [xleb].
  - apply Qc_leb_refl.
  - apply Qc_leb_true. apply Qc_ltb_false. exact E.
Qed.

Lemma clip_one_above x y :
  finite x -> finite y -> xleb x y = true -> xleb x xone = true ->
  xleb x (clip_one y) = true.
Proof.
  intros [p ->]%finite_inv [q ->]%finite_inv H H1.
  unfold clip_one. destruct (xgtb (Fin q) xone); assumption.
Qed.

(** Dividing a non-negative [p] by [(r+1)/m <= 1] does not decrease it. *)
Lemma raw_above (p : Qc) (r m : nat) :
  (0 <= p)%Qc -> r <= m ->
  xleb (Fin p) (xdiv (Fin p) (xdiv (of_nat (S r)) (of_nat (S m)))) = true.
Proof.
  intros Hp Hr. rewrite xdiv_nat_nat.
  pose proof (Qc_of_nat_S_pos r) as HR. pose proof (Qc_of_nat_S_pos m) as HM.
  cbn [xdiv]. rewrite (proj2 (Qc_eqb_false _ _) (Qc_ratio_neq _ _ HR HM)).
  cbn [xleb]. apply Qc_leb_true.
  apply (Qc_mul_le_iff _ _ _ HR).
  replace (p / (Qc_of_nat (S r) / Qc_of_nat (S m)) * Qc_of_nat (S r))%Qc
    with (Qc_of_nat (S m) * p)%Qc
    by (field; split; apply Qc_pos_neq; assumption).
  rewrite (Qcmult_comm p). apply Qcmult_le_compat_r; [|exact Hp].
  apply Qc_of_nat_le. lia.
Qed.

Section CorrectionBounds.

Variable ps : list xfloat.
Variable a : Qc.
Hypothesis ps_unit : Forall unit_interval ps.

Let m := length ps.
Let order := argsort ps.
Let corrected := snd (fdrcorrection ps (Fin a)).
Let pv (r : nat) : xfloat := nth (nth r order 0) ps NaN.
Let raw := zip_with xdiv (take ps order) (ecdf m).

Lemma ps_all_finite : Forall finite ps.
Proof.
  eapply Forall_impl; [|exact ps_unit]. apply unit_interval_finite.
Qed.

Lemma pv_unit r : r < m -> unit_interval (pv r).
Proof.
  intros Hr. rewrite Forall_forall in ps_unit. apply ps_unit.
  apply nth_In. apply argsort_nth_lt. exact Hr.
Qed.

Lemma pv_below_raw r : r < m -> xleb (pv r) (nth r raw NaN) = true.
Proof.
  intros Hr. unfold raw, m, order. rewrite raw_nth by exact Hr.
  fold order. fold (pv r). destruct (pv_unit r Hr) as [q [-> [H0 _]]].
  fold m. destruct m as [|m'] eqn:Em; [lia|]. apply raw_above; [exact H0|lia].
Qed.

Lemma corrected_rank_bounds r :
  r < m ->
  xleb (pv r) (nth (nth r order 0) corrected NaN) = true /\
  xleb (nth (nth r order 0) corrected NaN) xone = true.
Proof.
  intros Hr. unfold corrected, order. rewrite corrected_rank by exact Hr.
  fold order m raw.
  assert (Hraw : Forall finite raw) by (apply (raw_all_finite ps a), ps_all_finite).
  assert (Hrl : r < length raw) by (unfold raw, m, order; rewrite raw_length; exact Hr).
  destruct (suffix_min_spec xzero raw r eq_refl Hraw Hrl) as [Hf _].
  split; [|apply clip_one_le_one; exact Hf].
  destruct (pv_unit r Hr) as [q [Eq [H0 H1]]].
  apply clip_one_above.
  - rewrite Eq. reflexivity.
  - exact Hf.
  - destruct (suffix_min_spec (nth r (suffix_min raw) NaN) raw r Hf Hraw Hrl)
      as [_ Hiff].
    destruct (proj1 Hiff (xleb_refl_finite _ Hf)) as [r' [Hle [Hlt Hmin]]].
    assert (Hr' : r' < m) by (unfold raw, m, order in Hlt; rewrite raw_length in Hlt; exact Hlt).
    apply (xleb_trans_finite _ (nth r' raw NaN)); try assumption.
    + rewrite Eq. reflexivity.
    + apply nth_finite; assumption.
    + apply (xleb_trans_finite _ (pv r')).
      * rewrite Eq. reflexivity.
      * apply unit_interval_finite, pv_unit. exact Hr'.
      * apply nth_finite; assumption.
      * apply (pv_sorted ps ps_all_finite); assumption.
      * apply pv_below_raw. exact Hr'.
  - rewrite Eq. cbn [xleb xone]. apply Qc_leb_true. exact H1.
Qed.

(** Every corrected p-value lies between its uncorrected p-value and
    one. *)
Lemma corrected_bounds v :
  v < m ->
  xleb (nth v ps NaN) (nth v corrected NaN) = true /\
  xleb (nth v corrected NaN) xone = true.
Proof.
  intros Hv. destruct (argsort_onto ps v Hv) as [r [Hr <-]].
  apply corrected_rank_bounds. exact Hr.
Qed.

End CorrectionBounds.

(** ** The uncorrected p-values are probabilities *)

Lemma neg_abs_nonpos (t : xfloat) :
  xopp (xabs t) = NaN \/ xleb (xopp (xabs t)) xzero = true.
Proof.
  destruct t as [q| | |]; cbn [xabs xopp]; auto.
  right. cbn [xleb xzero]. apply Qc_leb_true.
  destruct (Qc_ltb q 0) eqn:E.
  - apply Qc_ltb_true in E. rewrite Qcopp_involutive.
    apply Qclt_le_weak. exact E.
  - apply Qc_ltb_false in E. qc_order.
Qed.

Lemma Qc_double_unit (q : Qc) :
  (0 <= q)%Qc -> (q <= q_of 1 2)%Qc ->
  (0 <= q * Qc_of_nat 2)%Qc /\ (q * Qc_of_nat 2 <= 1)%Qc.
Proof.
  intros H0 H1.
  replace (Qc_of_nat 2) with (1 + 1)%Qc by (apply Qc_is_canon; reflexivity).
  assert (E : (q_of 1 2 + q_of 1 2 = 1)%Qc) by (apply Qc_is_canon; reflexivity).
  replace (q * (1 + 1))%Qc with (q + q)%Qc by ring.
  split.
  - apply Qc_plus_nonneg; assumption.
  - rewrite <- E. apply Qcplus_le_compat; assumption.
Qed.

Lemma two_sided_unit stdtr df t :
  lower_tail stdtr ->
  two_sided stdtr df t = NaN \/ unit_interval (two_sided stdtr df t).
Proof.
  intros H. unfold two_sided.
  destruct (H df (xopp (xabs t)) (neg_abs_nonpos t)) as [->|[q [-> [H0 H1]]]].
  - left. reflexivity.
  - right. exists (q * Qc_of_nat 2)%Qc. split; [reflexivity|].
    apply Qc_double_unit; assumption.
Qed.

Lemma unit_interval_one : unit_interval xone.
Proof.
  exists 1%Qc. split; [reflexivity|]. split; [discriminate|apply Qcle_refl].
Qed.

Lemma in_zip_with {A B C : Type} (f : A -> B -> C) l1 l2 z :
  In z (zip_with f l1 l2) -> exists x y, z = f x y.
Proof.
  revert l2. induction l1 as [|x l1 IH]; intros [|y l2] H; simpl in H;
    try contradiction.
  destruct H as [<-|H]; [eauto|]. apply (IH l2 H).
Qed.

Section Probabilities.

Variable np_load : string -> result (ndarray xfloat).
Variable nrrd_read : string -> result (ndarray xfloat).
Variable np_sqrt : xfloat -> xfloat.
Variable stdtr : xfloat -> xfloat -> xfloat.
Hypothesis stdtr_lower_tail : lower_tail stdtr.

Let compare := compare_groups_voxelwise np_load nrrd_read np_sqrt stdtr.

Lemma ttest_p_unit m1 s1 n1 m2 s2 n2 t p :
  ttest_ind_from_stats np_sqrt stdtr m1 s1 n1 m2 s2 n2 = Ok (t, p) ->
  Forall unit_interval (data (replace_nan xone p)).
Proof.
  unfold ttest_ind_from_stats. intros H.
  destruct (unequal_var_ttest_denom _ _ _ _ _) as [[df denom]|];
    [|discriminate].
  cbn [bind] in H.
  destruct (nd_sub m1 m2) as [d|]; [|discriminate]. cbn [bind] in H.
  destruct (nd_div d denom) as [t'|]; [|discriminate]. cbn [bind] in H.
  destruct (broadcast2 _ _ _ df t') as [pv|] eqn:E; [|discriminate].
  cbn [bind] in H. injection H as <- <-.
  unfold broadcast2 in E. destruct (broadcast_shapes _ _); [|discriminate].
  injection E as <-. cbn [replace_nan nd_map data].
  apply Forall_forall. intros x Hx. apply in_map_iff in Hx.
  destruct Hx as [y [<- Hy]]. apply in_zip_with in Hy.
  destruct Hy as [u [w ->]].
  destruct (two_sided_unit stdtr u w stdtr_lower_tail) as [->|Hu].
  - apply unit_interval_one.
  - destruct Hu as [q [Eq Hq]]. rewrite Eq. cbn [is_nan].
    exists q. auto.
Qed.

Lemma compare_p_unit A B alpha r :
  compare A B alpha = Ok r ->
  Forall unit_interval (data (p_values_uncorrected r)).
Proof.
  unfold compare, compare_groups_voxelwise. intros H.
  destruct (calculate_online_stats_3d _ _ A) as [[[mA vA] nA]|];
    [|discriminate].
  destruct (calculate_online_stats_3d _ _ B) as [[[mB vB] nB]|];
    [|discriminate].
  cbn [bind] in H.
  destruct ((nA <? 2) || (nB <? 2)); [discriminate|].
  destruct mA as [mA|], vA as [vA|], mB as [mB|], vB as [vB|];
    try discriminate.
  destruct (ttest_ind_from_stats _ _ _ _ _ _ _ _) as [[t p]|] eqn:Et;
    [|discriminate].
  cbn [bind] in H.
  destruct (fdrcorrection _ _) as [rejected corrected].
  destruct (nd_sub mB mA) as [d|]; [|discriminate].
  cbn [bind] in H. injection H as <-. cbn [p_values_uncorrected].
  eapply ttest_p_unit. exact Et.
Qed.

(** The uncorrected p-values of any result are probabilities: finite,
    between zero and one. *)
Theorem p_values_are_probabilities A B alpha r :
  compare A B alpha = Ok r ->
  Forall unit_interval (data (p_values_uncorrected r)).
Proof. apply compare_p_unit. Qed.

(** The same comparison at another level [alpha'] returns the same
    t-statistics, p-values and mean difference; only the correction is
    run again. *)
Lemma compare_at_other_level A B alpha alpha' r :
  compare A B alpha = Ok r ->
  compare A B alpha'
  = Ok (mk_result (t_statistics r) (p_values_uncorrected r)
          (reshape (snd (fdrcorrection (flatten (p_values_uncorrected r))
                           alpha'))
             (shape (p_values_uncorrected r)))
          (reshape (fst (fdrcorrection (flatten (p_values_uncorrected r))
                           alpha'))
             (shape (p_values_uncorrected r)))
          (mean_diff r)).
Proof.
  unfold compare, compare_groups_voxelwise. intros H.
  destruct (calculate_online_stats_3d _ _ A) as [[[mA vA] nA]|];
    [|discriminate].
  destruct (calculate_online_stats_3d _ _ B) as [[[mB vB] nB]|];
    [|discriminate].
  cbn [bind] in *.
  destruct ((nA <? 2) || (nB <? 2)); [discriminate|].
  destruct mA as [mA|], vA as [vA|], mB as [mB|], vB as [vB|];
    try discriminate.
  destruct (ttest_ind_from_stats _ _ _ _ _ _ _ _) as [[t p]|];
    [|discriminate].
  cbn [bind] in *.
  destruct (fdrcorrection _ alpha) as [rejected corrected].
  destruct (nd_sub mB mA) as [d|]; [|discriminate].
  cbn [bind] in *. injection H as <-.
  cbn [t_statistics p_values_uncorrected mean_diff].
  unfold flatten.
  destruct (fdrcorrection _ alpha') as [rejected' corrected'].
  reflexivity.
Qed.

End Probabilities.

Lemma stdtr_model_lower_tail : lower_tail stdtr_model.
Proof.
  intros df x Hx. unfold stdtr_model.
  destruct (is_nan df); [left; reflexivity|].
  destruct x as [q| | |].
  - right. destruct Hx as [Hx|Hx]; [discriminate|].
    cbn [xleb xzero] in Hx. apply Qc_leb_true in Hx.
    eexists. split; [reflexivity|].
    replace (Qc_of_Z 2) with (1 + 1)%Qc by (apply Qc_is_canon; reflexivity).
    replace (q_of 1 2) with (1 / (1 + 1))%Qc
      by (apply Qc_is_canon; reflexivity).
    assert (H2 : (1 + 1)%Qc <> 0%Qc) by discriminate.
    destruct (Qc_ltb q 0) eqn:E.
    + apply Qc_ltb_true in E.
      assert (Hd : (0 < (1 + 1) * (1 + - q))%Qc) by qc_order.
      pose proof (Qc_pos_neq _ Hd) as Hd0.
      assert (H1q : (1 + - q)%Qc <> 0%Qc).
      { intros Z. rewrite Z, Qcmult_0_r in Hd.
        exact (Qclt_not_eq _ _ Hd eq_refl). }
      split.
      * apply (Qc_mul_le_iff _ _ _ Hd).
        replace ((1 / (1 + 1) + q / ((1 + 1) * (1 + - q)))
                 * ((1 + 1) * (1 + - q)))%Qc with 1%Qc by (field; auto).
        rewrite Qcmult_0_l. discriminate.
      * apply (Qc_mul_le_iff _ _ _ Hd).
        replace ((1 / (1 + 1) + q / ((1 + 1) * (1 + - q)))
                 * ((1 + 1) * (1 + - q)))%Qc with 1%Qc by (field; auto).
        replace (1 / (1 + 1) * ((1 + 1) * (1 + - q)))%Qc with (1 + - q)%Qc
          by (field; auto).
        qc_order.
    + apply Qc_ltb_false in E.
      assert (q = 0%Qc) as -> by (apply Qcle_antisym; assumption).
      replace (1 / (1 + 1) + 0 / ((1 + 1) * (1 + 0)))%Qc
        with (1 / (1 + 1))%Qc by (apply Qc_is_canon; reflexivity).
      split; [discriminate|apply Qcle_refl].
  - destruct Hx as [Hx|Hx]; discriminate.
  - right. exists 0%Qc. split; [reflexivity|]. split; discriminate.
  - left. reflexivity.
Qed.

Lemma p_values_are_probabilities_witness :
  lower_tail stdtr_model /\
  exists r,
    sample_compare group_nan group_y alpha_05 = Ok r /\
    Forall unit_interval (data (p_values_uncorrected r)).
Proof.
  split; [exact stdtr_model_lower_tail|].
  destruct (sample_compare group_nan group_y alpha_05) as [r|e] eqn:E.
  - exists r. split; [reflexivity|].
    exact (p_values_are_probabilities sample_load sample_load sqrt_model
             stdtr_model stdtr_model_lower_tail group_nan group_y alpha_05
             r E).
  - vm_compute in E. discriminate E.
Defined.

(** ** Corrected p-values and the level *)

Lemma snd_fdr_level ps alpha alpha' :
  snd (fdrcorrection ps alpha) = snd (fdrcorrection ps alpha').
Proof. rewrite !fdrcorrection_unfold. reflexivity. Qed.

Lemma xleb_weaken x (a a' : Qc) :
  (a <= a')%Qc -> xleb x (Fin a) = true -> xleb x (Fin a') = true.
Proof.
  intros Ha. destruct x as [q| | |]; cbn [xleb]; try congruence.
  rewrite !Qc_leb_true. intros H. apply (Qcle_trans _ a); assumption.
Qed.

Section CorrectedResult.

Variable np_load : string -> result (ndarray xfloat).
Variable nrrd_read : string -> result (ndarray xfloat).
Variable np_sqrt : xfloat -> xfloat.
Variable stdtr : xfloat -> xfloat -> xfloat.
Hypothesis stdtr_lower_tail : lower_tail stdtr.

Let compare := compare_groups_voxelwise np_load nrrd_read np_sqrt stdtr.

Let unit_p A B alpha r (H : compare A B alpha = Ok r) :=
  compare_p_unit np_load nrrd_read np_sqrt stdtr stdtr_lower_tail A B alpha r H.

(** In any result each corrected p-value lies between the uncorrected
    p-value of its voxel and one. *)
Theorem corrected_between_p_and_one A B alpha r :
  compare A B alpha = Ok r ->
  forall v, v < length (data (p_values_uncorrected r)) ->
    xleb (nth v (data (p_values_uncorrected r)) NaN)
         (nth v (data (p_values_corrected_fdr r)) NaN) = true /\
    xleb (nth v (data (p_values_corrected_fdr r)) NaN) xone = true.
Proof.
  intros H v Hv.
  destruct (compare_uses_fdrcorrection _ _ _ _ _ _ _ _ H) as [_ ->].
  unfold reshape, flatten. cbn [data].
  rewrite (snd_fdr_level _ alpha (Fin 0%Qc)).
  apply corrected_bounds; [exact (unit_p A B alpha r H)|exact Hv].
Qed.

(** A significant voxel has an uncorrected p-value of at most the level. *)
Theorem significant_has_small_p A B (a : Qc) r :
  (a < 1)%Qc ->
  compare A B (Fin a) = Ok r ->
  forall v, v < length (data (p_values_uncorrected r)) ->
    nth v (data (significant_mask_fdr r)) false = true ->
    xleb (nth v (data (p_values_uncorrected r)) NaN) (Fin a) = true.
Proof.
  intros Ha H v Hv Hsig.
  pose proof (unit_p A B (Fin a) r H) as Hunit.
  pose proof (ps_all_finite _ Hunit) as Hfin.
  destruct (compare_uses_fdrcorrection _ _ _ _ _ _ _ _ H) as [Em Ec].
  rewrite Em in Hsig. unfold reshape, flatten in Hsig. cbn [data] in Hsig.
  apply (rejected_iff_corrected _ a Hfin Ha v Hv) in Hsig.
  destruct (corrected_bounds _ a Hunit v Hv) as [Hlow _].
  apply (xleb_trans_finite _ (nth v (snd (fdrcorrection
                                (data (p_values_uncorrected r)) (Fin a))) NaN));
    try assumption; try reflexivity.
  - apply nth_finite; assumption.
  - destruct (argsort_onto _ v Hv) as [k [Hk <-]].
    apply corrected_finite; assumption.
Qed.

(** Raising the level keeps every significant voxel significant, and
    changes nothing else in the result. *)
Theorem mask_grows_with_level A B (a a' : Qc) r :
  (a <= a')%Qc -> (a' < 1)%Qc ->
  compare A B (Fin a) = Ok r ->
  exists r',
    compare A B (Fin a') = Ok r' /\
    t_statistics r' = t_statistics r /\
    p_values_uncorrected r' = p_values_uncorrected r /\
    p_values_corrected_fdr r' = p_values_corrected_fdr r /\
    mean_diff r' = mean_diff r /\
    forall v, v < length (data (p_values_uncorrected r)) ->
      nth v (data (significant_mask_fdr r)) false = true ->
      nth v (data (significant_mask_fdr r')) false = true.
Proof.
  intros Hle Ha' H.
  pose proof (unit_p A B (Fin a) r H) as Hunit.
  pose proof (ps_all_finite _ Hunit) as Hfin.
  assert (Ha : (a < 1)%Qc) by (apply (Qcle_lt_trans _ a'); assumption).
  destruct (compare_uses_fdrcorrection _ _ _ _ _ _ _ _ H) as [Em Ec].
  eexists. split; [apply (compare_at_other_level _ _ _ _ A B (Fin a) (Fin a') r H)|].
  cbn [t_statistics p_values_uncorrected p_values_corrected_fdr
         significant_mask_fdr mean_diff].
  repeat split.
  - rewrite Ec. unfold reshape. f_equal; apply snd_fdr_level.
  - intros v Hv Hsig. rewrite Em in Hsig.
    unfold reshape, flatten in *. cbn [data] in *.
    apply (rejected_iff_corrected _ a Hfin Ha v Hv) in Hsig.
    apply (rejected_iff_corrected _ a' Hfin Ha' v Hv).
    rewrite (snd_fdr_level _ (Fin a') (Fin a)).
    apply (xleb_weaken _ a a' Hle). exact Hsig.
Qed.

End CorrectedResult.

Lemma corrected_between_p_and_one_witness :
  lower_tail stdtr_model /\
  exists r,
    sample_compare group_x group_y alpha_05 = Ok r /\
    xleb (nth 1 (data (p_values_uncorrected r)) NaN)
         (nth 1 (data (p_values_corrected_fdr r)) NaN) = true /\
    xleb (nth 1 (data (p_values_corrected_fdr r)) NaN) xone = true.
Proof.
  split; [exact stdtr_model_lower_tail|].
  destruct (sample_compare group_x group_y alpha_05) as [r|e] eqn:E;
    [|vm_compute in E; discriminate E].
  exists r. split; [reflexivity|].
  apply (corrected_between_p_and_one sample_load sample_load sqrt_model
           stdtr_model stdtr_model_lower_tail group_x group_y alpha_05 r E).
  pose proof E as E'. vm_compute in E'. injection E' as <-.
  vm_compute. repeat constructor.
Defined.

Lemma significant_has_small_p_witness :
  (lower_tail stdtr_model /\ (q_of 1 20 < 1)%Qc) /\
  exists r,
    sample_compare group_ones group_twos alpha_05 = Ok r /\
    nth 0 (data (significant_mask_fdr r)) false = true /\
    xleb (nth 0 (data (p_values_uncorrected r)) NaN) alpha_05 = true.
Proof.
  split; [split; [exact stdtr_model_lower_tail|reflexivity]|].
  destruct (sample_compare group_ones group_twos alpha_05) as [r|e] eqn:E;
    [|vm_compute in E; discriminate E].
  exists r. split; [reflexivity|].
  assert (Hsig : nth 0 (data (significant_mask_fdr r)) false = true).
  { pose proof E as E'. vm_compute in E'. injection E' as <-. reflexivity. }
  split; [exact Hsig|].
  apply (significant_has_small_p sample_load sample_load sqrt_model
           stdtr_model stdtr_model_lower_tail group_ones group_twos
           (q_of 1 20) r eq_refl E 0); [|exact Hsig].
  pose proof E as E'. vm_compute in E'. injection E' as <-.
  vm_compute. repeat constructor.
Defined.

Lemma mask_grows_with_level_witness :
  (lower_tail stdtr_model /\ (q_of 1 20 <= q_of 1 10)%Qc /\
   (q_of 1 10 < 1)%Qc) /\
  exists r r',
    sample_compare group_ones group_twos alpha_05 = Ok r /\
    sample_compare group_ones group_twos alpha_10 = Ok r' /\
    p_values_corrected_fdr r' = p_values_corrected_fdr r /\
    nth 0 (data (significant_mask_fdr r)) false = true /\
    nth 0 (data (significant_mask_fdr r')) false = true.
Proof.
  split; [split; [exact stdtr_model_lower_tail|split; [discriminate|reflexivity]]|].
  destruct (sample_compare group_ones group_twos alpha_05) as [r|e] eqn:E;
    [|vm_compute in E; discriminate E].
  assert (Hsig : nth 0 (data (significant_mask_fdr r)) false = true).
  { pose proof E as E'. vm_compute in E'. injection E' as <-. reflexivity. }
  assert (Hlen : 0 < length (data (p_values_uncorrected r))).
  { pose proof E as E'. vm_compute in E'. injection E' as <-.
    vm_compute. repeat constructor. }
  destruct (mask_grows_with_level sample_load sample_load sqrt_model
              stdtr_model stdtr_model_lower_tail group_ones group_twos
              (q_of 1 20) (q_of 1 10) r ltac:(discriminate) eq_refl E)
    as [r' [E' [_ [_ [Hc [_ Hm]]]]]].
  exists r, r'. repeat split; try assumption.
  apply (Hm 0 Hlen Hsig).
Defined.

(** ** Significance follows the order of the p-values *)

Lemma threshold_monotone (a : Qc) (r r' m : nat) :
  (0 <= a)%Qc -> r <= r' ->
  xleb (xmul (xdiv (of_nat (S r)) (of_nat (S m))) (Fin a))
       (xmul (xdiv (of_nat (S r')) (of_nat (S m))) (Fin a)) = true.
Proof.
  intros Ha Hr. rewrite !xdiv_nat_nat. cbn [xmul xleb].
  apply Qc_leb_true. pose proof (Qc_of_nat_S_pos m) as HM.
  apply (Qc_mul_le_iff _ _ _ HM).
  replace (Qc_of_nat (S r) / Qc_of_nat (S m) * a * Qc_of_nat (S m))%Qc
    with (Qc_of_nat (S r) * a)%Qc by (field; apply Qc_pos_neq; exact HM).
  replace (Qc_of_nat (S r') / Qc_of_nat (S m) * a * Qc_of_nat (S m))%Qc
    with (Qc_of_nat (S r') * a)%Qc by (field; apply Qc_pos_neq; exact HM).
  apply Qcmult_le_compat_r; [|exact Ha]. apply Qc_of_nat_le. lia.
Qed.

Lemma threshold_is_finite (a : Qc) (r m : nat) :
  finite (xmul (xdiv (of_nat (S r)) (of_nat (S m))) (Fin a)).
Proof. rewrite xdiv_nat_nat. reflexivity. Qed.

(** On finite p-values and for a non-negative level: a voxel whose
    p-value is not larger than that of a significant voxel is
    significant, however the sort ordered equal p-values. *)
Lemma rejected_lower_set ps (a : Qc) v w :
  Forall finite ps -> (0 <= a)%Qc ->
  v < length ps -> w < length ps ->
  xleb (nth w ps NaN) (nth v ps NaN) = true ->
  nth v (fst (fdrcorrection ps (Fin a))) false = true ->
  nth w (fst (fdrcorrection ps (Fin a))) false = true.
Proof.
  intros Hfin Ha Hv Hw Hle Hsig.
  destruct (argsort_onto ps v Hv) as [rv [Hrv Ev]].
  destruct (argsort_onto ps w Hw) as [rw [Hrw Ew]].
  rewrite <- Ev in Hsig, Hle. rewrite <- Ew in Hle |- *.
  apply (rejected_step_up ps a rv Hrv) in Hsig.
  apply (rejected_step_up ps a rw Hrw).
  destruct Hsig as [r' [H1 [H2 H3]]].
  destruct (Nat.le_gt_cases rw r') as [Hc|Hc].
  - exists r'. auto.
  - exists rw. repeat split; try lia.
    destruct (length ps) as [|m'] eqn:Em; [lia|].
    pose proof (pv_finite ps Hfin) as Hpf. rewrite Em in Hpf.
    pose proof (pv_sorted ps Hfin) as Hps. rewrite Em in Hps.
    apply (xleb_trans_finite _
             (xmul (xdiv (of_nat (S r')) (of_nat (S m'))) (Fin a))).
    + apply Hpf. exact Hrw.
    + apply threshold_is_finite.
    + apply threshold_is_finite.
    + apply (xleb_trans_finite _ (nth (nth r' (argsort ps) 0) ps NaN)).
      * apply Hpf. exact Hrw.
      * apply Hpf. exact H2.
      * apply threshold_is_finite.
      * apply (xleb_trans_finite _ (nth (nth rv (argsort ps) 0) ps NaN)).
        -- apply Hpf. exact Hrw.
        -- apply Hpf. exact Hrv.
        -- apply Hpf. exact H2.
        -- exact Hle.
        -- apply Hps; assumption.
      * exact H3.
    + apply threshold_monotone; [exact Ha|lia].
Qed.

Section LowerSet.

Variable np_load : string -> result (ndarray xfloat).
Variable nrrd_read : string -> result (ndarray xfloat).
Variable np_sqrt : xfloat -> xfloat.
Variable stdtr : xfloat -> xfloat -> xfloat.
Hypothesis stdtr_lower_tail : lower_tail stdtr.

Let compare := compare_groups_voxelwise np_load nrrd_read np_sqrt stdtr.

(** Significance follows the p-values: in any result at a non-negative
    level, a voxel whose uncorrected p-value is not larger than that of a
    significant voxel is significant too. *)
Theorem smaller_p_is_significant A B (a : Qc) r v w :
  (0 <= a)%Qc ->
  compare A B (Fin a) = Ok r ->
  v < length (data (p_values_uncorrected r)) ->
  w < length (data (p_values_uncorrected r)) ->
  xleb (nth w (data (p_values_uncorrected r)) NaN)
       (nth v (data (p_values_uncorrected r)) NaN) = true ->
  nth v (data (significant_mask_fdr r)) false = true ->
  nth w (data (significant_mask_fdr r)) false = true.
Proof.
  intros Ha H Hv Hw Hle Hsig.
  pose proof (compare_p_unit np_load nrrd_read np_sqrt stdtr
                stdtr_lower_tail A B (Fin a) r H) as Hunit.
  pose proof (ps_all_finite _ Hunit) as Hfin.
  destruct (compare_uses_fdrcorrection _ _ _ _ _ _ _ _ H) as [Em _].
  rewrite Em in *. unfold reshape, flatten in *. cbn [data] in *.
  apply (rejected_lower_set _ a v w); assumption.
Qed.

End LowerSet.

Lemma smaller_p_is_significant_witness :
  (lower_tail stdtr_model /\ (0 <= q_of 1 20)%Qc) /\
  exists r,
    sample_compare group_ones group_twos alpha_05 = Ok r /\
    nth 0 (data (significant_mask_fdr r)) false = true /\
    nth 3 (data (significant_mask_fdr r)) false = true.
Proof.
  split; [split; [exact stdtr_model_lower_tail|discriminate]|].
  destruct (sample_compare group_ones group_twos alpha_05) as [r|e] eqn:E;
    [|vm_compute in E; discriminate E].
  exists r. split; [reflexivity|].
  assert (Hsig : nth 0 (data (significant_mask_fdr r)) false = true).
  { pose proof E as E'. vm_compute in E'. injection E' as <-. reflexivity. }
  split; [exact Hsig|].
  apply (smaller_p_is_significant sample_load sample_load sqrt_model
           stdtr_model stdtr_model_lower_tail group_ones group_twos
           (q_of 1 20) r 0 3 ltac:(discriminate) E); try exact Hsig;
    pose proof E as E'; vm_compute in E'; injection E' as <-;
    vm_compute; repeat constructor.
Defined.

(** ** The signed projection *)

Lemma map_result_ok {A B : Type} (f : A -> result B) l ys :
  map_result f l = Ok ys ->
  length ys = length l /\
  forall k dA dB, k < length l -> f (nth k l dA) = Ok (nth k ys dB).
Proof.
  revert ys. induction l as [|x l IH]; intros ys H.
  - injection H as <-. split; [reflexivity|]. intros k dA dB Hk. simpl in Hk. lia.
  - unfold map_result in H. cbn [fold_right] in H.
    fold (map_result f l) in H.
    destruct (f x) as [y|] eqn:Ey; [|discriminate]. cbn [bind] in H.
    destruct (map_result f l) as [ys'|] eqn:E; [|discriminate].
    cbn [bind] in H. injection H as <-.
    destruct (IH ys' eq_refl) as [Hl Hn].
    split; [simpl; congruence|].
    intros [|k] dA dB Hk; cbn [nth]; [exact Ey|].
    apply Hn. simpl in Hk. lia.
Qed.

Lemma map_result_returns {A B : Type} (f : A -> result B) l :
  (forall x, In x l -> exists y, f x = Ok y) ->
  exists ys, map_result f l = Ok ys.
Proof.
  induction l as [|x l IH]; intros H.
  - exists []. reflexivity.
  - destruct (H x (or_introl eq_refl)) as [y Ey].
    destruct IH as [ys E]; [intros z Hz; apply H; right; exact Hz|].
    exists (y :: ys). unfold map_result in *. cbn [fold_right].
    rewrite Ey. cbn [bind]. rewrite E. reflexivity.
Qed.

Lemma argmax_from_bound l best_i best i :
  best_i < i -> argmax_from best_i best i l < i + length l.
Proof.
  revert best_i best i. induction l as [|x l IH]; intros bi b i H;
    cbn [argmax_from length].
  - lia.
  - destruct (is_nan b); [lia|].
    destruct (is_nan x || xltb b x).
    + specialize (IH i x (S i)). lia.
    + specialize (IH bi b (S i)). lia.
Qed.

Lemma argmax_bound l idx : argmax l = Some idx -> idx < length l.
Proof.
  destruct l as [|x l]; [discriminate|]. cbn [argmax length].
  intros H. injection H as <-.
  pose proof (argmax_from_bound l 0 x 1). lia.
Qed.

Lemma argmax_returns l : l <> [] -> exists idx, argmax l = Some idx.
Proof. destruct l; [congruence|]. intros _. eexists. reflexivity. Qed.

Lemma along_ray_offset a axis_idx i j idx :
  along a axis_idx i j idx
  = nth (ray_offset (shape a) axis_idx i j idx) (data a) NaN.
Proof. destruct axis_idx as [|[|?]]; reflexivity. Qed.

Lemma offset_bound s0 s1 s2 i j k :
  i < s0 -> j < s1 -> k < s2 -> offset (s0, s1, s2) i j k < size (s0, s1, s2).
Proof.
  intros Hi Hj Hk. cbn [offset size].
  assert (H1 : S (i * s1 + j) <= s0 * s1).
  { apply Nat.le_trans with (S i * s1); [simpl; lia|].
    apply Nat.mul_le_mono_r. lia. }
  apply Nat.lt_le_trans with (S (i * s1 + j) * s2); [simpl; lia|].
  apply Nat.mul_le_mono_r. exact H1.
Qed.

Lemma ray_offset_bound s axis_idx rows cols len i j idx :
  axis_idx < 3 ->
  proj_shape s axis_idx = (rows, cols, len) ->
  i < rows -> j < cols -> idx < len ->
  ray_offset s axis_idx i j idx < size s.
Proof.
  destruct s as [[s0 s1] s2]. intros Ha Hp Hi Hj Hx.
  destruct axis_idx as [|[|[|?]]]; [| | |lia];
    cbn [proj_shape] in Hp; injection Hp as <- <- <-;
    cbn [ray_offset]; apply offset_bound; assumption.
Qed.

Lemma masked_diff_ok significant_mask mean_diff diff_mask :
  masked_diff significant_mask mean_diff = Ok diff_mask ->
  shape significant_mask = shape mean_diff /\
  shape diff_mask = shape mean_diff /\
  data diff_mask
  = zip_with (fun (m : bool) d => if m then d else xzero)
      (data significant_mask) (data mean_diff).
Proof.
  unfold masked_diff.
  destruct (shape_eqb _ _) eqn:E; [|discriminate].
  intros H. injection H as <-. cbn [shape data].
  repeat split.
  destruct (shape significant_mask) as [[a0 a1] a2],
           (shape mean_diff) as [[b0 b1] b2].
  cbn [shape_eqb] in E.
  apply andb_prop in E. destruct E as [E E2].
  apply andb_prop in E. destruct E as [E0 E1].
  apply Nat.eqb_eq in E0, E1, E2. congruence.
Qed.

(** The pixels of a returned projection, read off the loop. *)
Lemma signed_projection_ok significant_mask mean_diff axis_idx img
    rows cols len :
  signed_projection significant_mask mean_diff axis_idx = Ok img ->
  proj_shape (shape mean_diff) axis_idx = (rows, cols, len) ->
  axis_idx < 3 /\ 0 < len /\
  shape significant_mask = shape mean_diff /\
  length img = rows /\
  forall i, i < rows ->
    length (nth i img []) = cols /\
    forall j, j < cols ->
      exists diff_mask idx,
        masked_diff significant_mask mean_diff = Ok diff_mask /\
        max_index diff_mask axis_idx i j = Some idx /\
        nth j (nth i img []) NaN
        = if 0 <? idx then along diff_mask axis_idx i j idx else xzero.
Proof.
  unfold signed_projection. intros H Hp.
  destruct (3 <=? axis_idx) eqn:Ea; [discriminate|].
  apply Nat.leb_gt in Ea.
  destruct (masked_diff significant_mask mean_diff) as [dm|] eqn:Em;
    [|discriminate].
  cbn [bind] in H.
  destruct (masked_diff_ok _ _ _ Em) as [Hs [Hd _]].
  rewrite Hd, Hp in H.
  destruct (len =? 0) eqn:El; [discriminate|].
  apply Nat.eqb_neq in El.
  apply map_result_ok in H. destruct H as [Hl Hrows].
  rewrite length_seq in Hl, Hrows.
  repeat split; try assumption; try lia.
  - specialize (Hrows i 0 [] H). rewrite seq_nth in Hrows by exact H.
    apply map_result_ok in Hrows. destruct Hrows as [Hc _].
    rewrite length_seq in Hc. exact Hc.
  - intros j Hj.
    specialize (Hrows i 0 [] H). rewrite seq_nth in Hrows by exact H.
    apply map_result_ok in Hrows. destruct Hrows as [_ Hcols].
    rewrite length_seq in Hcols.
    specialize (Hcols j 0 NaN Hj). rewrite seq_nth in Hcols by exact Hj.
    cbn [Nat.add] in Hcols.
    destruct (max_index dm axis_idx i j) as [idx|] eqn:Ei; [|discriminate].
    injection Hcols as Hcols.
    exists dm, idx. auto.
Qed.

(** The projection never shows a voxel that is not significant: each of
    its pixels is zero, or the mean difference at a significant voxel of
    the ray behind it, and never at the first voxel of the ray. *)
Theorem projection_shows_significant_only significant_mask mean_diff
    axis_idx img rows cols len i j :
  wf significant_mask -> wf mean_diff ->
  signed_projection significant_mask mean_diff axis_idx = Ok img ->
  proj_shape (shape mean_diff) axis_idx = (rows, cols, len) ->
  i < rows -> j < cols ->
  nth j (nth i img []) NaN = xzero \/
  exists idx, 0 < idx < len /\
    nth (ray_offset (shape mean_diff) axis_idx i j idx)
        (data significant_mask) false = true /\
    nth j (nth i img []) NaN
    = nth (ray_offset (shape mean_diff) axis_idx i j idx)
          (data mean_diff) NaN.
Proof.
  intros Hwm Hwd H Hp Hi Hj.
  destruct (signed_projection_ok _ _ _ _ _ _ _ H Hp)
    as [Ha [Hlen [Hs [_ Hpix]]]].
  destruct (Hpix i Hi) as [_ Hrow].
  destruct (Hrow j Hj) as [dm [idx [Em [Ei Epix]]]].
  destruct (masked_diff_ok _ _ _ Em) as [_ [Hd Hdata]].
  destruct (0 <? idx) eqn:E0; [|left; exact Epix].
  apply Nat.ltb_lt in E0.
  assert (Hidx : idx < len).
  { unfold max_index in Ei. rewrite Hd, Hp in Ei.
    apply argmax_bound in Ei. rewrite length_map, length_seq in Ei.
    exact Ei. }
  pose proof (ray_offset_bound _ _ _ _ _ _ _ _ Ha Hp Hi Hj Hidx) as Hoff.
  rewrite along_ray_offset, Hd, Hdata in Epix.
  rewrite (nth_zip_with _ false NaN NaN) in Epix
    by (unfold wf in Hwm, Hwd; rewrite Hs in Hwm; lia).
  destruct (nth (ray_offset (shape mean_diff) axis_idx i j idx)
              (data significant_mask) false) eqn:Emask.
  - right. exists idx. repeat split; try assumption.
  - left. exact Epix.
Qed.

Lemma projection_shows_significant_only_witness :
  (wf ray_mask /\ wf (arr (2, 1, 1) [1; -5]%Z)) /\
  (nth 0 (nth 0 [[of_Z (-5)]] []) NaN = xzero \/
   exists idx, 0 < idx < 2 /\
     nth (ray_offset (2, 1, 1) 0 0 0 idx) (data ray_mask) false = true /\
     nth 0 (nth 0 [[of_Z (-5)]] []) NaN
     = nth (ray_offset (2, 1, 1) 0 0 0 idx)
           (data (arr (2, 1, 1) [1; -5]%Z)) NaN).
Proof.
  split; [split; reflexivity|].
  apply (projection_shows_significant_only ray_mask
           (arr (2, 1, 1) [1; -5]%Z) 0 [[of_Z (-5)]] 1 1 2 0 0);
    try reflexivity; lia.
Defined.

Section ProjectionOfResult.

Variable np_load : string -> result (ndarray xfloat).
Variable nrrd_read : string -> result (ndarray xfloat).
Variable np_sqrt : xfloat -> xfloat.
Variable stdtr : xfloat -> xfloat -> xfloat.

Let calc := calculate_online_stats_3d np_load nrrd_read.
Let compare := compare_groups_voxelwise np_load nrrd_read np_sqrt stdtr.

Lemma compare_mask_shape A B alpha r :
  compare A B alpha = Ok r ->
  shape (significant_mask_fdr r) = shape (mean_diff r).
Proof.
  unfold compare, compare_groups_voxelwise. fold calc. intros H.
  destruct (calc A) as [[[mA vA] nA]|] eqn:EA; [|discriminate].
  destruct (calc B) as [[[mB vB] nB]|] eqn:EB; [|discriminate].
  cbn [bind] in H.
  destruct ((nA <? 2) || (nB <? 2)); [discriminate|].
  destruct mA as [mA|], vA as [vA|], mB as [mB|], vB as [vB|];
    try discriminate.
  destruct (ttest_ind_from_stats _ _ _ _ _ _ _ _) as [[t p]|] eqn:Et;
    [|discriminate].
  cbn [bind] in H.
  destruct (fdrcorrection _ _) as [rejected corrected].
  destruct (nd_sub mB mA) as [d|] eqn:Ed; [|discriminate].
  cbn [bind] in H. injection H as <-.
  cbn [significant_mask_fdr mean_diff replace_nan nd_map reshape shape].
  apply ttest_shapes in Et;
    [| cbn [nd_map shape]; eapply calc_variance_shape; eassumption
     | cbn [nd_map shape]; eapply calc_variance_shape; eassumption].
  destruct Et as [Hb Hp].
  apply broadcast2_shape in Ed. rewrite broadcast_shapes_comm in Ed.
  congruence.
Qed.

(** The script projects what the comparison returned. The mask of a
    result always fits its mean difference, so along every axis of
    non-zero length the projection returns, as an image of the two
    remaining lengths. *)
Theorem projection_of_result_returns A B alpha r axis_idx rows cols len :
  compare A B alpha = Ok r ->
  axis_idx < 3 ->
  proj_shape (shape (mean_diff r)) axis_idx = (rows, cols, len) ->
  0 < len ->
  exists img,
    signed_projection (significant_mask_fdr r) (mean_diff r) axis_idx
    = Ok img /\
    length img = rows /\
    Forall (fun row => length row = cols) img.
Proof.
  intros H Ha Hp Hlen.
  pose proof (compare_mask_shape _ _ _ _ H) as Hs.
  assert (E : exists img,
             signed_projection (significant_mask_fdr r) (mean_diff r) axis_idx
             = Ok img).
  { unfold signed_projection.
    destruct (3 <=? axis_idx) eqn:Ea; [apply Nat.leb_le in Ea; lia|].
    unfold masked_diff. rewrite Hs.
    rewrite (proj2 (shape_eqb_true _ _) eq_refl). cbn [bind shape].
    rewrite Hp.
    destruct (len =? 0) eqn:El; [apply Nat.eqb_eq in El; lia|].
    apply map_result_returns. intros i _.
    apply map_result_returns. intros j _.
    unfold max_index. cbn [shape]. rewrite Hp.
    destruct (argmax_returns
                (map (fun idx =>
                        xabs (along
                                (mk_nd (shape (mean_diff r))
                                   (zip_with
                                      (fun (m : bool) d =>
                                         if m then d else xzero)
                                      (data (significant_mask_fdr r))
                                      (data (mean_diff r))))
                                axis_idx i j idx))
                   (seq 0 len))) as [idx Ei].
    { destruct len; [lia|]. discriminate. }
    rewrite Ei. eexists. reflexivity. }
  destruct E as [img E]. exists img. split; [exact E|].
  destruct (signed_projection_ok _ _ _ _ _ _ _ E Hp)
    as [_ [_ [_ [Hrows Hpix]]]].
  split; [exact Hrows|].
  apply Forall_forall. intros row Hin.
  destruct (In_nth _ _ [] Hin) as [i [Hi <-]].
  apply Hpix. lia.
Qed.

End ProjectionOfResult.

Lemma projection_of_result_returns_witness :
  exists r,
    sample_compare group_x group_y alpha_05 = Ok r /\
    (1 < 3 /\ proj_shape (shape (mean_diff r)) 1 = (2, 2, 1) /\ 0 < 1) /\
    exists img,
      signed_projection (significant_mask_fdr r) (mean_diff r) 1 = Ok img /\
      length img = 2 /\
      Forall (fun row => length row = 2) img.
Proof.
  destruct (sample_compare group_x group_y alpha_05) as [r|e] eqn:E;
    [|vm_compute in E; discriminate E].
  exists r. split; [reflexivity|].
  assert (Hp : proj_shape (shape (mean_diff r)) 1 = (2, 2, 1)).
  { pose proof E as E'. vm_compute in E'. injection E' as <-. reflexivity. }
  split; [repeat split; [lia|exact Hp|lia]|].
  apply (projection_of_result_returns sample_load sample_load sqrt_model
           stdtr_model group_x group_y alpha_05 r 1 2 2 1 E);
    [lia|exact Hp|lia].
Defined.

(** ** The files of a folder *)

Lemma string_length_append a b :
  String.length (String.append a b) = String.length a + String.length b.
Proof. induction a as [|c a IH]; simpl; [reflexivity|]. rewrite IH. reflexivity. Qed.

Lemma substring_append_skip a s k m :
  substring (String.length a + k) m (String.append a s) = substring k m s.
Proof. induction a as [|c a IH]; simpl; [reflexivity|exact IH]. Qed.

Lemma substring_whole s : substring 0 (String.length s) s = s.
Proof. induction s as [|c s IH]; simpl; [reflexivity|]. rewrite IH. reflexivity. Qed.

Lemma substring_split s k :
  k <= String.length s ->
  s = String.append (substring 0 k s) (substring k (String.length s - k) s).
Proof.
  revert k. induction s as [|c s IH]; intros k Hk.
  - simpl in Hk. assert (k = 0) as -> by lia. reflexivity.
  - destruct k as [|k].
    + rewrite Nat.sub_0_r, substring_whole.
      destruct s; reflexivity.
    + simpl in Hk. cbn [substring String.append String.length Nat.sub].
      f_equal. apply IH. lia.
Qed.

(** A prefix does not change how a string ends. *)
Lemma endswith_append a s t :
  String.length t <= String.length s ->
  endswith (String.append a s) t = endswith s t.
Proof.
  intros H. unfold endswith. rewrite string_length_append.
  replace (String.length a + String.length s - String.length t)
    with (String.length a + (String.length s - String.length t)) by lia.
  rewrite substring_append_skip.
  replace (String.length t <=? String.length a + String.length s) with true
    by (symmetry; apply Nat.leb_le; lia).
  replace (String.length t <=? String.length s) with true
    by (symmetry; apply Nat.leb_le; lia).
  reflexivity.
Qed.

Lemma endswith_length s t :
  endswith s t = true -> String.length t <= String.length s.
Proof.
  unfold endswith. intros H. apply andb_prop in H.
  apply Nat.leb_le. apply H.
Qed.

Lemma endswith_split s t :
  endswith s t = true -> exists pre, s = String.append pre t.
Proof.
  intros H. pose proof (endswith_length _ _ H) as Hl.
  unfold endswith in H. apply andb_prop in H. destruct H as [_ H].
  apply String.eqb_eq in H.
  exists (substring 0 (String.length s - String.length t) s).
  pose proof (substring_split s (String.length s - String.length t)) as Hs.
  replace (String.length s - (String.length s - String.length t))
    with (String.length t) in Hs by lia.
  rewrite H in Hs. apply Hs. lia.
Qed.

Lemma endswith_path_join a b t :
  endswith b t = true -> endswith (path_join a b) t = true.
Proof.
  intros H. pose proof (endswith_length _ _ H) as Hl. unfold path_join.
  destruct (String.prefix "/" b); [exact H|].
  destruct (String.eqb a "" || endswith a "/").
  - rewrite endswith_append; assumption.
  - rewrite endswith_append.
    + rewrite endswith_append; assumption.
    + rewrite string_length_append. lia.
Qed.

Section FolderFacts.

Variable path_exists : string -> bool.
Variable listdir : string -> result (list string).
Variable np_load : string -> result (ndarray xfloat).
Variable nrrd_read : string -> result (ndarray xfloat).

Let get_files := get_files_with_suffix path_exists listdir.

Lemma get_files_ok folder_path suffix files :
  get_files folder_path suffix = Ok files ->
  files <> [] /\
  exists names,
    listdir folder_path = Ok names /\
    files = map (path_join folder_path)
              (filter (fun f => endswith f suffix) names).
Proof.
  unfold get_files, get_files_with_suffix.
  destruct (negb (path_exists folder_path)); [discriminate|].
  destruct (listdir folder_path) as [names|]; [|discriminate].
  cbn [bind].
  destruct (map _ _) as [|p ps] eqn:E; [discriminate|].
  intros H. injection H as <-.
  split; [discriminate|]. exists names. split; [reflexivity|].
  symmetry. exact E.
Qed.

(** Whatever the folder holds, a returned list is not empty and each of
    its paths ends with the suffix that was asked for. *)
Theorem collected_files_end_with_suffix folder_path suffix files :
  get_files folder_path suffix = Ok files ->
  files <> [] /\
  Forall (fun p => endswith p suffix = true) files.
Proof.
  intros H. destruct (get_files_ok _ _ _ H) as [Hne [names [_ ->]]].
  split; [exact Hne|].
  apply Forall_forall. intros p Hin.
  apply in_map_iff in Hin. destruct Hin as [f [<- Hf]].
  apply filter_In in Hf. destruct Hf as [_ Hf].
  apply endswith_path_join. exact Hf.
Qed.

(** The suffix decides the reader: when it has at least the four
    characters of [.npy], every collected file is read by [np.load] if
    the suffix ends with [.npy], and by [nrrd.read] otherwise. *)
Theorem suffix_decides_reader folder_path suffix files :
  4 <= String.length suffix ->
  get_files folder_path suffix = Ok files ->
  Forall (fun p =>
            read_array np_load nrrd_read p
            = if endswith suffix ".npy" then np_load p else nrrd_read p)
         files.
Proof.
  intros Hl H. destruct (get_files_ok _ _ _ H) as [_ [names [_ ->]]].
  apply Forall_forall. intros p Hin.
  apply in_map_iff in Hin. destruct Hin as [f [<- Hf]].
  apply filter_In in Hf. destruct Hf as [_ Hf].
  pose proof (endswith_path_join folder_path f suffix Hf) as Hp.
  destruct (endswith_split _ _ Hp) as [pre Epre].
  unfold read_array. rewrite Epre at 1.
  rewrite endswith_append by exact Hl.
  reflexivity.
Qed.

End FolderFacts.

Lemma collected_files_end_with_suffix_witness :
  exists files,
    get_files_with_suffix sample_exists sample_listdir "group_x" ".nrrd"
    = Ok files /\
    files <> [] /\
    Forall (fun p => endswith p ".nrrd" = true) files.
Proof.
  destruct (get_files_with_suffix sample_exists sample_listdir
              "group_x" ".nrrd") as [files|e] eqn:E;
    [|vm_compute in E; discriminate E].
  exists files. split; [reflexivity|].
  exact (collected_files_end_with_suffix sample_exists sample_listdir
           "group_x" ".nrrd" files E).
Defined.

Lemma suffix_decides_reader_witness :
  exists files,
    4 <= String.length ".nrrd" /\
    get_files_with_suffix sample_exists sample_listdir "group_x" ".nrrd"
    = Ok files /\
    Forall (fun p =>
              read_array sample_load sample_load p
              = if endswith ".nrrd" ".npy" then sample_load p
                else sample_load p)
           files.
Proof.
  destruct (get_files_with_suffix sample_exists sample_listdir
              "group_x" ".nrrd") as [files|e] eqn:E;
    [|vm_compute in E; discriminate E].
  exists files. split; [simpl; lia|]. split; [reflexivity|].
  apply (suffix_decides_reader sample_exists sample_listdir
           sample_load sample_load "group_x" ".nrrd" files);
    [simpl; lia|exact E].
Defined.
